(** * Verification of the SDMX-ML 2.1 reader core of the [sdmx] package

    Shallow embedding of [sdmx/urn.py] and of the parts of
    [sdmx/reader/sdmxml.py] (working stack, reference descriptor, resolver,
    driver loop and some handlers) that the properties below are about. *)

From Stdlib Require Import String Ascii List Bool Arith ZArith Lia.
Import ListNotations.
Open Scope list_scope.
Open Scope string_scope.
Set Warnings "-register-all".

(* ================================================================== *)
(** ** Strings *)

Module Str.

Fixpoint take (n : nat) (s : string) : string :=
  match n, s with
  | O, _ => EmptyString
  | S n', String c s' => String c (take n' s')
  | S _, EmptyString => EmptyString
  end.

Fixpoint all_chars (p : ascii -> bool) (s : string) : bool :=
  match s with
  | EmptyString => true
  | String c s' => p c && all_chars p s'
  end.

(** [str.lower] on one character. A Rocq [ascii] is read as the code
    point 0-255 (Latin-1): the capitals A-Z and U+00C0-U+00DE, except the
    multiplication sign U+00D7, map to their lowercase forms 32 places on;
    every other code point in that range is its own lowercase form. *)
Definition lower_char (c : ascii) : ascii :=
  let n := nat_of_ascii c in
  if (((65 <=? n) && (n <=? 90))
      || ((192 <=? n) && (n <=? 222) && negb (n =? 215)))%nat
  then ascii_of_nat (n + 32)%nat else c.

Fixpoint lower (s : string) : string :=
  match s with
  | EmptyString => EmptyString
  | String c s' => String (lower_char c) (lower s')
  end.

Fixpoint starts_with (p s : string) : bool :=
  match p, s with
  | EmptyString, _ => true
  | String c p', String d s' => Ascii.eqb c d && starts_with p' s'
  | String _ _, EmptyString => false
  end.

(** [s.replace(old, new)]: every non-overlapping occurrence of [old],
    scanned left to right; [fuel] bounds the scan by the length of [s]. *)
Fixpoint replace_fuel (fuel : nat) (old new s : string) : string :=
  match fuel with
  | O => s
  | S fuel' =>
      match s with
      | EmptyString => EmptyString
      | String c s' =>
          if starts_with old s
          then new ++ replace_fuel fuel' old new (substring (String.length old) (String.length s) s)
          else String c (replace_fuel fuel' old new s')
      end
  end.

Definition replace (s old new : string) : string :=
  replace_fuel (String.length s) old new s.

End Str.

(* ================================================================== *)
(** ** [sdmx.urn]: a backtracking matcher for the regular expression [URN] *)

Module Urn.

(** The constructs the pattern [URN] uses.  [StarCls p] is a greedy [c*]
    over the one-character class [p]; [Opt r] is a greedy [(...)?];
    [Grp n r] is the named group [(?P<n>r)]. *)
Inductive regex :=
| Lit (c : ascii)
| StarCls (p : ascii -> bool)
| Seq (r1 r2 : regex)
| Opt (r : regex)
| Grp (name : string) (r : regex).

(** Captured groups, most recent first. *)
Definition env := list (string * string).

(** Greedy star: first try to consume one more character, and fall back to
    stopping here, as Python's [re] backtracks. *)
Fixpoint m_star (p : ascii -> bool) (s : string) (e : env)
         (k : string -> env -> option env) : option env :=
  match s with
  | EmptyString => k EmptyString e
  | String c s' =>
      if p c
      then match m_star p s' e k with
           | Some r => Some r
           | None => k s e
           end
      else k s e
  end.

Fixpoint m (r : regex) (s : string) (e : env)
         (k : string -> env -> option env) : option env :=
  match r with
  | Lit c =>
      match s with
      | String d s' => if Ascii.eqb c d then k s' e else None
      | EmptyString => None
      end
  | StarCls p => m_star p s e k
  | Seq r1 r2 => m r1 s e (fun s' e' => m r2 s' e' k)
  | Opt r1 =>
      match m r1 s e k with
      | Some res => Some res
      | None => k s e
      end
  | Grp n r1 =>
      m r1 s e (fun s' e' => k s' ((n, Str.take (String.length s - String.length s')%nat s) :: e'))
  end.

Fixpoint lits (s : string) (rest : regex) : regex :=
  match s with
  | EmptyString => rest
  | String c s' => Seq (Lit c) (lits s' rest)
  end.

Definition is_digit (c : ascii) : bool :=
  let n := nat_of_ascii c in ((48 <=? n) && (n <=? 57))%nat.

Definition not_char (d : ascii) (c : ascii) : bool := negb (Ascii.eqb c d).

(** [.]: any character but a newline. *)
Definition any_char (c : ascii) : bool := not_char "010"%char c.

(** The source text of [URN] in [sdmx/urn.py] (the five raw-string pieces
    concatenated), kept for reference; [URN] below is its syntax tree. *)
Definition URN_source : string :=
  "urn:sdmx:org\.sdmx\.infomodel\.(?P<package>[^\.]*)\.(?P<class>[^=]*)=((?P<agency>[^:]*):)?(?P<id>[^\(\.]*)(\((?P<version>[\d\.]*)\))?(\.(?P<item_id>.*))?".

Definition URN : regex :=
  lits "urn:sdmx:org.sdmx.infomodel"
  (Seq (Lit ".")
  (Seq (Grp "package" (StarCls (not_char ".")))
  (Seq (Lit ".")
  (Seq (Grp "class" (StarCls (not_char "=")))
  (Seq (Lit "=")
  (Seq (Opt (Seq (Grp "agency" (StarCls (not_char ":"))) (Lit ":")))
  (Seq (Grp "id" (StarCls (fun c => not_char "(" c && not_char "." c)))
  (Seq (Opt (Seq (Lit "(")
            (Seq (Grp "version" (StarCls (fun c => is_digit c || Ascii.eqb c ".")))
                 (Lit ")"))))
       (Opt (Seq (Lit ".") (Grp "item_id" (StarCls any_char)))))))))))).

(** [groupdict()]: a group that took part in the match maps to its text,
    any other group to [None]. *)
Record groups := {
  package : option string;
  class : option string;
  agency : option string;
  id : option string;
  version : option string;
  item_id : option string
}.

Fixpoint lookup (n : string) (e : env) : option string :=
  match e with
  | [] => None
  | (n', v) :: e' => if String.eqb n n' then Some v else lookup n e'
  end.

Definition groupdict (e : env) : groups :=
  {| package := lookup "package" e; class := lookup "class" e;
     agency := lookup "agency" e; id := lookup "id" e;
     version := lookup "version" e; item_id := lookup "item_id" e |}.

(** [URN.match(string).groupdict()]; [None] stands for the failed match,
    on which [.groupdict()] raises [AttributeError]. [re.match] anchors at
    the start only, so the final continuation accepts any remainder. *)
Definition match_ (s : string) : option groups :=
  option_map groupdict (m URN s [] (fun _ e => Some e)).

(** The object fields [make] reads. *)
Record urn_obj := {
  obj_package : string;        (* PACKAGE[obj.__class__] *)
  obj_class_name : string;     (* obj.__class__.__name__ *)
  obj_maintainer_id : string;  (* obj.maintainer.id *)
  obj_id : string;             (* obj.id *)
  obj_version : string         (* obj.version *)
}.

(** [make(obj)]: [_BASE.format(...)]. *)
Definition make (o : urn_obj) : string :=
  "urn:sdmx:org.sdmx.infomodel." ++ obj_package o ++ "." ++ obj_class_name o
  ++ "=" ++ obj_maintainer_id o ++ ":" ++ obj_id o ++ "(" ++ obj_version o ++ ")".

End Urn.

(* ================================================================== *)
(** ** Classes, objects and values *)

(** Modelled from the spec: the class hierarchy of [sdmx.model] (section 3.1
    of the spec), which is not part of this source tree, restricted to the
    classes the reader code below names, plus the transient [Reference] of
    the reader and the builtin types the working stack holds. [bases] lists
    the direct base classes. *)
Inductive pyclass :=
| AnnotableArtefact | IdentifiableArtefact | NameableArtefact
| VersionableArtefact | MaintainableArtefact | ConstrainableArtefact
| Item | Agency | Code | Concept | Category | DataProvider
| ItemScheme | AgencyScheme | Codelist | ConceptScheme | CategoryScheme
| DataProviderScheme
| DataflowDefinition | DataStructureDefinition | ContentConstraint
| Categorisation | Annotation | CubeRegion | DataKeySet
| Message | StructureMessage | DataMessage | ErrorMessage
| ReferenceT
| PyStr | PyTuple | PyDict | PyNone.

Scheme Equality for pyclass.

Definition bases (c : pyclass) : list pyclass :=
  match c with
  | IdentifiableArtefact => [AnnotableArtefact]
  | NameableArtefact => [IdentifiableArtefact]
  | VersionableArtefact => [NameableArtefact]
  | MaintainableArtefact => [VersionableArtefact]
  | Item => [NameableArtefact]
  | Agency | Code | Concept | Category | DataProvider => [Item]
  | ItemScheme => [MaintainableArtefact]
  | AgencyScheme | Codelist | ConceptScheme | CategoryScheme
  | DataProviderScheme => [ItemScheme]
  | DataflowDefinition | DataStructureDefinition =>
      [MaintainableArtefact; ConstrainableArtefact]
  | ContentConstraint | Categorisation => [MaintainableArtefact]
  | StructureMessage | DataMessage | ErrorMessage => [Message]
  | _ => []
  end.

(** [issubclass(c, d)]; the hierarchy above is at most six levels deep. *)
Fixpoint issubclass_fuel (fuel : nat) (c d : pyclass) : bool :=
  pyclass_beq c d ||
  match fuel with
  | O => false
  | S f => existsb (fun b => issubclass_fuel f b d) (bases c)
  end.

Definition issubclass (c d : pyclass) : bool := issubclass_fuel 8 c d.

(** The [id] attribute of an object: absent, [None], or a string. *)
Inductive id_attr := NoIdAttr | IdNone | IdStr (s : string).

(** A model object: its identity ([id(obj)]), class, [id] attribute,
    [is_external_reference] flag and child objects (for an Item, its
    children in the item forest; for an ItemScheme, its items). *)
Inductive obj := mkObj {
  ident : nat;
  ocls : pyclass;
  oid : id_attr;
  is_external_reference : bool;
  children : list obj
}.

(** The transient [Reference] of [sdmxml.py]. *)
Module Ref.
Record Reference := {
  maintainable : bool;
  child_cls : pyclass;
  child_id : option string;
  cls : pyclass;
  id : option string;
  version : option string
}.
End Ref.

(** The values the working stack holds. *)
Inductive value :=
| VNone
| VObj (o : obj)
| VRef (r : Ref.Reference)
| VStr (s : string)
| VTuple (l : list value)
| VDict (d : list (string * list value)).

Definition class_of (v : value) : pyclass :=
  match v with
  | VNone => PyNone
  | VObj o => ocls o
  | VRef _ => ReferenceT
  | VStr _ => PyStr
  | VTuple _ => PyTuple
  | VDict _ => PyDict
  end.

Inductive event := EvStart | EvEnd.

(** The exceptions the code raises. *)
Inductive exn :=
| NotImplementedError (tag : string) (ev : event)
| XMLParseError (cause : exn)
| RuntimeError (uncollected : Z)
| KeyError | AttributeError | TypeError | IndexError | AssertionError
| NotReference | OtherError (what : string).

(* ================================================================== *)
(** ** The working stack: [Reader.stack], a [defaultdict(list)] *)

(** A bucket key is a class token or an XML localname. *)
Inductive key := KCls (c : pyclass) | KStr (s : string).

Definition key_eqb (k1 k2 : key) : bool :=
  match k1, k2 with
  | KCls c1, KCls c2 => pyclass_beq c1 c2
  | KStr s1, KStr s2 => String.eqb s1 s2
  | _, _ => false
  end.

(** A Python dict as an association list in insertion order. *)
Definition Stack := list (key * list value).

(** Well-formedness of a dict: no key twice. *)
Definition wf (d : Stack) : Prop := NoDup (map fst d).

Fixpoint dict_get (k : key) (d : Stack) : option (list value) :=
  match d with
  | [] => None
  | (k', vs) :: d' => if key_eqb k k' then Some vs else dict_get k d'
  end.

(** Contents of a bucket, [[]] for a missing one. *)
Definition bucket (k : key) (d : Stack) : list value :=
  match dict_get k d with Some vs => vs | None => [] end.

Fixpoint dict_remove (k : key) (d : Stack) : Stack :=
  match d with
  | [] => []
  | (k', vs) :: d' =>
      if key_eqb k k' then dict_remove k d' else (k', vs) :: dict_remove k d'
  end.

(** [self.stack[k].extend(vs)]: a missing key is first created at the end. *)
Fixpoint extend_to (k : key) (vs : list value) (d : Stack) : Stack :=
  match d with
  | [] => [(k, vs)]
  | (k', ws) :: d' =>
      if key_eqb k k' then (k', (ws ++ vs)%list) :: d' else (k', ws) :: extend_to k vs d'
  end.

(** [self.stack[k].append(v)]. *)
Definition append_to (k : key) (v : value) (d : Stack) : Stack :=
  extend_to k [v] d.

(** Evaluating [self.stack[k]]: creates the empty bucket if missing. *)
Definition touch (k : key) (d : Stack) : Stack := extend_to k [] d.

(** [push(value)]: keyed by the value's class; [None] is not pushed. *)
Definition push (v : value) (d : Stack) : Stack :=
  match v with
  | VNone => d
  | _ => append_to (KCls (class_of v)) v d
  end.

(** [push(key, value)] with a class or a localname key: appends even [None]. *)
Definition push_key (k : key) (v : value) (d : Stack) : Stack := append_to k v d.

(** An argument [cls_or_name]: a string or a class. *)
Inductive query := QStr (s : string) | QCls (c : pyclass).

(** [matching_class(cls)] applied to a key. *)
Definition matching_class (c : pyclass) (k : key) : bool :=
  match k with
  | KCls k' => issubclass k' c
  | KStr _ => false
  end.

(** The list comprehension of [pop_all] over the snapshot [ks] of the keys:
    [self.stack.pop(k) if cond(k) else []], in order. *)
Fixpoint pop_keys (c : pyclass) (ks : list key) (d : Stack)
  : exn + (list (list value) * Stack) :=
  match ks with
  | [] => inr ([], d)
  | k :: ks' =>
      if matching_class c k
      then match dict_get k d with
           | None => inl KeyError
           | Some vs =>
               match pop_keys c ks' (dict_remove k d) with
               | inl e => inl e
               | inr (vss, d') => inr (vs :: vss, d')
               end
           end
      else match pop_keys c ks' d with
           | inl e => inl e
           | inr (vss, d') => inr ([] :: vss, d')
           end
  end.

(** [Reader.pop_all]. *)
Definition pop_all (q : query) (d : Stack) : exn + (list value * Stack) :=
  match q with
  | QStr s => inr (bucket (KStr s) d, dict_remove (KStr s) d)
  | QCls c =>
      match pop_keys c (map fst d) d with
      | inl e => inl e
      | inr (vss, d') => inr (concat vss, d')
      end
  end.

(** The [results] of [Reader.get]. *)
Definition get_results (q : query) (strict : bool) (d : Stack) : list value :=
  match q with
  | QStr s => bucket (KStr s) d
  | QCls c =>
      if strict then bucket (KCls c) d
      else concat (map snd (filter (fun kv => matching_class c (fst kv)) d))
  end.

(** Reading [obj.id]. *)
Definition attr_id (v : value) : exn + option string :=
  match v with
  | VObj o =>
      match oid o with
      | NoIdAttr => inl AttributeError
      | IdNone => inr None
      | IdStr s => inr (Some s)
      end
  | VRef r => inr (Ref.id r)
  | _ => inl AttributeError
  end.

Definition opt_str_eqb (a b : option string) : bool :=
  match a, b with
  | Some x, Some y => String.eqb x y
  | None, None => true
  | _, _ => false
  end.

(** [for obj in results: if obj.id == id: return obj] (falling off the end
    returns [None]). *)
Fixpoint scan_id (s : string) (l : list value) : exn + option value :=
  match l with
  | [] => inr None
  | v :: l' =>
      match attr_id v with
      | inl e => inl e
      | inr i => if opt_str_eqb i (Some s) then inr (Some v) else scan_id s l'
      end
  end.

(** [None if len(results) != 1 else results[0]]. *)
Definition single (l : list value) : option value :=
  match l with [v] => Some v | _ => None end.

(** Python truthiness of the [id] argument. *)
Definition truthy_str (i : option string) : bool :=
  match i with None => false | Some s => negb (String.eqb s "") end.

(** [Reader.get(cls_or_name, id=None, strict=False)]. *)
Definition get (q : query) (i : option string) (strict : bool) (d : Stack)
  : exn + option value :=
  let results := get_results q strict d in
  match i with
  | Some s => if truthy_str i then scan_id s results else inr (single results)
  | None => inr (single results)
  end.

(** [self.stack[k].pop(-1)] on a bucket already present. *)
Definition pop_last (k : key) (d : Stack) : option (value * Stack) :=
  match rev (bucket k d) with
  | [] => None
  | v :: rvs =>
      Some (v, map (fun kv => if key_eqb k (fst kv) then (fst kv, rev rvs) else kv) d)
  end.




(** [Reader.unstash()]: the [IndexError] of an empty ["_stash"] bucket is
    swallowed. For a non-dict entry the behaviour follows [sdmx.model],
    which is outside this tree (the spec calls an ItemScheme a container of
    Items): an ItemScheme's [items] is a dict field, so calling it raises
    [TypeError]; the other values have no [items] attribute at all, hence
    [AttributeError]. *)
Definition unstash (d : Stack) : exn + Stack :=
  let d1 := touch (KStr "_stash") d in
  match pop_last (KStr "_stash") d1 with
  | None => inr d1
  | Some (VDict dct, d2) =>
      inr (fold_left (fun acc kv => extend_to (KStr (fst kv)) (snd kv) acc) dct d2)
  | Some (VObj o, _) =>
      if issubclass (ocls o) ItemScheme then inl TypeError else inl AttributeError
  | Some (_, _) => inl AttributeError
  end.

(* ================================================================== *)
(** ** [Reference.__init__] *)

(** An XML element: tag, attributes, text and child elements. *)
Inductive xml := XElem (tag : string) (attrib : list (string * string))
                       (text : option string) (kids : list xml).

Fixpoint attr_get (n : string) (a : list (string * string)) : option string :=
  match a with
  | [] => None
  | (n', v) :: a' => if String.eqb n n' then Some v else attr_get n a'
  end.

Fixpoint after_brace (s : string) : string :=
  match s with
  | EmptyString => EmptyString
  | String c s' => if Ascii.eqb c "}" then s' else after_brace s'
  end.

(** [QName(tag).localname]: the part after ["{namespace}"]. *)
Definition localname (tag : string) : string :=
  match tag with
  | String c s' => if Ascii.eqb c "{" then after_brace s' else tag
  | EmptyString => EmptyString
  end.

(** The renaming table of [get_sdmx_class]. *)
Definition sdmx_alias (name : string) : string :=
  if String.eqb name "Attribute" then "DataAttribute"
  else if String.eqb name "Dataflow" then "DataflowDefinition"
  else if String.eqb name "DataStructure" then "DataStructureDefinition"
  else if String.eqb name "GroupDimension" then "Dimension"
  else if String.eqb name "ObsKey" then "Key"
  else if String.eqb name "Receiver" then "Agency"
  else if String.eqb name "Sender" then "Agency"
  else if String.eqb name "Source" then "Agency"
  else name.

Section ReferenceInit.

(** [model.get_class(name, package)] and [model.parent_class(cls)] belong to
    [sdmx.model], outside this source tree: they are left as parameters,
    with their failures ([None] for a class not found, or an exception). *)
Variable get_class : string -> option string -> exn + option pyclass.
Variable parent_class : pyclass -> exn + pyclass.

Definition get_sdmx_class (elem_or_name : string) (package : option string)
  : exn + option pyclass :=
  get_class (sdmx_alias (localname elem_or_name)) package.

(** [except KeyError: ...]. *)
Definition catch_key_error {A} (r : exn + A) (h : exn + A) : exn + A :=
  match r with
  | inl KeyError => h
  | _ => r
  end.

(** The part of [__init__] after [child_cls], [child_id], [id], [version]
    and [match] are known; [hint] is the converted [cls_hint] ([None] for a
    falsy or unresolved one). *)
Definition reference_finish (hint : option pyclass)
           (match_ : option Urn.groups) (child_cls0 : option pyclass)
           (child_id0 id0 version0 : option string) : exn + Ref.Reference :=
  (* if cls_hint and issubclass(cls_hint, child_cls): child_cls = cls_hint *)
  let child_cls1 : exn + option pyclass :=
    match hint, child_cls0 with
    | Some h, Some c => inr (Some (if issubclass h c then h else c))
    | Some _, None => inl TypeError
    | None, c => inr c
    end in
  match child_cls1 with
  | inl e => inl e
  | inr None => inl TypeError          (* issubclass(None, ...) *)
  | inr (Some child_cls) =>
      if issubclass child_cls MaintainableArtefact
      then inr {| Ref.maintainable := true; Ref.child_cls := child_cls;
                  Ref.child_id := child_id0; Ref.cls := child_cls;
                  Ref.id := child_id0; Ref.version := version0 |}
      else match parent_class child_cls with
           | inl e => inl e
           | inr cls =>
               let child_id :=
                 match match_ with
                 | Some g => Urn.item_id g
                 | None => child_id0
                 end in
               inr {| Ref.maintainable := false; Ref.child_cls := child_cls;
                      Ref.child_id := child_id; Ref.cls := cls;
                      Ref.id := id0; Ref.version := version0 |}
           end
  end.

(** [Reference(elem, cls_hint)]. *)
Definition Reference_init (elem : xml) (cls_hint : option string)
  : exn + Ref.Reference :=
  match elem with
  | XElem ptag _ _ kids =>
  match kids with
  | [] => inl NotReference                       (* elem[0]: IndexError *)
  | XElem ctag cattr ctext _ :: _ =>
  let hint : exn + option pyclass :=
    match cls_hint with
    | Some h => if String.eqb h "" then inr None else get_sdmx_class h None
    | None => inr None
    end in
  match hint with
  | inl e => inl e
  | inr hint =>
  if String.eqb ctag "Ref" then
    match attr_get "id" cattr with
    | None => inl KeyError
    | Some cid =>
        let id0 := attr_get "maintainableParentID" cattr in
        let version0 := attr_get "maintainableParentVersion" cattr in
        let from_parent :=
          catch_key_error (get_sdmx_class ptag None) (inr hint) in
        let child_cls :=
          match attr_get "class" cattr, attr_get "package" cattr with
          | Some c, Some p => catch_key_error (get_sdmx_class c (Some p)) from_parent
          | _, _ => from_parent
          end in
        match child_cls with
        | inl e => inl e
        | inr cc => reference_finish hint None cc (Some cid) id0 version0
        end
    end
  else if String.eqb ctag "URN" then
    match ctext with
    | None => inl TypeError                      (* re.match(None) *)
    | Some t =>
        match Urn.match_ t with
        | None => inl AttributeError             (* None.groupdict() *)
        | Some g =>
            match get_sdmx_class (match Urn.class g with Some c => c | None => "" end)
                                 (Urn.package g) with
            | inl e => inl e
            | inr cc => reference_finish hint (Some g) cc (Urn.id g) (Urn.id g)
                                         (Urn.version g)
            end
        end
    end
  else inl NotReference
  end
  end
  end.

End ReferenceInit.

(* ================================================================== *)
(** ** The reader state and [Reader.resolve] *)

(** An object identity as [id(...)] gives it: that of [None], or of an
    object. *)
Inductive pyid := IdOfNone | IdOfObj (n : nat).

Definition pyid_eqb (a b : pyid) : bool :=
  match a, b with
  | IdOfNone, IdOfNone => true
  | IdOfObj n, IdOfObj m => Nat.eqb n m
  | _, _ => false
  end.

(** The attributes of [Reader] used here; [next_ident] allocates the
    identities of objects the reader creates. *)
Record Reader := {
  stack : Stack;
  ignore : list pyid;
  next_ident : nat
}.

Definition set_stack (rd : Reader) (d : Stack) : Reader :=
  {| stack := d; ignore := ignore rd; next_ident := next_ident rd |}.

(** Python truthiness of a value. For model objects it follows
    [sdmx.model], which is outside this tree: [ItemScheme.__len__] counts
    the items, so an ItemScheme of any subclass without items is falsy;
    objects of the other classes are taken as truthy. *)
Definition truthy (v : value) : bool :=
  match v with
  | VNone => false
  | VObj o =>
      if issubclass (ocls o) ItemScheme
      then match children o with [] => false | _ => true end
      else true
  | VRef _ => true
  | VStr s => negb (String.eqb s "")
  | VTuple l => match l with [] => false | _ => true end
  | VDict d => match d with [] => false | _ => true end
  end.

Definition id_attr_of (i : option string) : id_attr :=
  match i with Some s => IdStr s | None => IdNone end.

(** [self.maintainable(cls, None, id=id, is_external_reference=True)]:
    with [elem] [None] no attribute is read and nothing is popped. *)
Definition external_stub (c : pyclass) (i : option string) (n : nat) : obj :=
  {| ident := n; ocls := c; oid := id_attr_of i;
     is_external_reference := true; children := [] |}.

(** Create the stub and [self.push] it. *)
Definition push_stub (c : pyclass) (i : option string) (rd : Reader) : obj * Reader :=
  let o := external_stub c i (next_ident rd) in
  (o, {| stack := push (VObj o) (stack rd); ignore := ignore rd;
         next_ident := S (next_ident rd) |}).

Section Resolve.

(** [parent[child_id]], the item lookup of [sdmx.model]'s ItemScheme
    (outside this source tree), left as a parameter. *)
Variable getitem : value -> option string -> exn + value.

(** [Reader.resolve(cls, ref)]; [VNone] is Python's [None]. *)
Definition resolve (c : pyclass) (v : value) (rd : Reader) : exn + (value * Reader) :=
  match v with
  | VRef r =>
    if negb (issubclass (Ref.cls r) c || issubclass (Ref.child_cls r) c)
    then inl AssertionError
    else
    match get (QCls (Ref.child_cls r)) (Ref.child_id r) false (stack rd) with
    | inl e => inl e
    | inr found =>
      let result := match found with Some x => x | None => VNone end in
      if truthy result then inr (result, rd)
      else if negb (Ref.maintainable r) then
        match get (QCls (Ref.cls r)) (Ref.id r) false (stack rd) with
        | inl e => inl e
        | inr p =>
          let '(parent, rd') :=
            match p with
            | None | Some VNone =>
                let '(o, rd') := push_stub (Ref.cls r) (Ref.id r) rd in (VObj o, rd')
            | Some x => (x, rd)
            end in
          match parent with
          | VObj o =>
              if is_external_reference o then inr (VNone, rd')
              else match getitem parent (Ref.child_id r) with
                   | inl e => inl e
                   | inr item => inr (item, rd')
                   end
          | _ => inl AttributeError
          end
        end
      else
        let '(o, rd') := push_stub (Ref.cls r) (Ref.id r) rd in
        inr (VObj o, rd')
    end
  | _ => inr (v, rd)
  end.

End Resolve.

(* ================================================================== *)
(** ** The driver: [Reader.read_message] *)

Section Driver.

(** The XML elements of the stream and their qualified tags. *)
Variable Elem : Type.
Variable elem_tag : Elem -> string.

(** A handler of the [PARSE] table: it gets the reader and the element and
    returns a value (possibly [None]) or raises. *)
Definition handler := Reader -> Elem -> exn + (value * Reader).

(** The dispatch table [PARSE]: [None] for a pair with no entry,
    [Some None] for an explicit no-op, [Some (Some h)] for a handler. *)
Definition registry := string -> event -> option (option handler).

Variable PARSE : registry.

(** The [for event, element in etree.iterparse(...)] loop. An explicit
    no-op raises [TypeError] when called, which is caught and skipped; the
    result of a handler is [self.push]ed; [element.clear()] has no effect on
    the reader's state. *)
Fixpoint run (rd : Reader) (evs : list (event * Elem)) : exn + Reader :=
  match evs with
  | [] => inr rd
  | (ev, el) :: evs' =>
      match PARSE (elem_tag el) ev with
      | None => inl (NotImplementedError (elem_tag el) ev)
      | Some None => run rd evs'
      | Some (Some h) =>
          match h rd el with
          | inl e => inl e
          | inr (result, rd') => run (set_stack rd' (push result (stack rd'))) evs'
          end
      end
  end.

Definition ident_of (v : value) : option pyid :=
  match v with
  | VNone => Some IdOfNone
  | VObj o => Some (IdOfObj (ident o))
  | _ => None
  end.

(** [id(o) in self.ignore]; strings, tuples, dicts and references are
    never the caller's DSD. *)
Definition ignored (ig : list pyid) (v : value) : bool :=
  match ident_of v with
  | Some i => existsb (pyid_eqb i) ig
  | None => false
  end.

(** The number of non-ignored entries of the stack. *)
Definition non_ignored (rd : Reader) : nat :=
  fold_right (fun kv acc =>
                (length (filter (fun v => negb (ignored (ignore rd) v)) (snd kv)) + acc)%nat)
             0%nat (stack rd).

(** The initial reader: [self.stack = defaultdict(list)],
    [self.ignore = set([id(dsd)])], [self.push(dsd)]. *)
Definition init_reader (dsd : option obj) : Reader :=
  match dsd with
  | Some o => {| stack := push (VObj o) []; ignore := [IdOfObj (ident o)];
                 next_ident := S (ident o) |}
  | None => {| stack := []; ignore := [IdOfNone]; next_ident := 0 |}
  end.

(** What follows the loop: [uncollected] starts at [-1]. *)
Definition finish (rd : Reader) : exn + option value :=
  let uncollected := (Z.of_nat (non_ignored rd) - 1)%Z in
  if (uncollected >? 0)%Z then inl (RuntimeError uncollected)
  else get (QCls Message) None false (stack rd).

Definition read_message (evs : list (event * Elem)) (dsd : option obj)
  : exn + option value :=
  match run (init_reader dsd) evs with
  | inl e => inl (XMLParseError e)
  | inr rd => finish rd
  end.

End Driver.

(* ================================================================== *)
(** ** [_itemscheme] *)

(** Modelled from the spec: [Item.__iter__] of [sdmx.model] (outside this
    source tree): the item, then its descendants ("flatten their
    descendants"), depth first. *)
Fixpoint iter_item (o : obj) : list obj :=
  o :: flat_map iter_item (children o).

(** [iter(x)] on a popped value. *)
Definition py_iter (v : value) : exn + list value :=
  match v with
  | VObj o => if issubclass (ocls o) Item then inr (map VObj (iter_item o))
              else inl TypeError
  | VTuple l => inr l
  | VDict d => inr (map (fun kv => VStr (fst kv)) d)
  | VStr s => inr (map (fun c => VStr (String c EmptyString)) (list_ascii_of_string s))
  | VNone | VRef _ => inl TypeError
  end.

(** [chain] over [[iter(item) for item in ...]]. *)
Fixpoint iter_all (l : list value) : exn + list value :=
  match l with
  | [] => inr []
  | v :: l' =>
      match py_iter v, iter_all l' with
      | inl e, _ => inl e
      | inr xs, inl e => inl e
      | inr xs, inr ys => inr (xs ++ ys)%list
      end
  end.

(** [cls._Item]. *)
Definition _Item (c : pyclass) : pyclass :=
  match c with
  | AgencyScheme => Agency
  | Codelist => Code
  | ConceptScheme => Concept
  | CategoryScheme => Category
  | DataProviderScheme => DataProvider
  | _ => Item
  end.

Section ItemScheme.

(** Items are dict keys in [seen]: [key_of] is what their [__hash__] and
    [__eq__] compare (defined in [sdmx.model], outside this tree). *)
Variable K : Type.
Variable K_eqb : K -> K -> bool.
Variable key_of : value -> K.

(** [[seen.setdefault(i, i) for i in iter_all if i not in seen]]. *)
Fixpoint dedup_seen (seen : list K) (l : list value) : list value :=
  match l with
  | [] => []
  | i :: l' =>
      if existsb (K_eqb (key_of i)) seen then dedup_seen seen l'
      else i :: dedup_seen (key_of i :: seen) l'
  end.

(** The [items] that [_itemscheme] passes to [reader.maintainable], with the
    stack left after popping the items. *)
Definition _itemscheme_items (c : pyclass) (d : Stack) : exn + (list value * Stack) :=
  match pop_all (QCls (_Item c)) d with
  | inl e => inl e
  | inr (popped, d') =>
      match iter_all popped with
      | inl e => inl e
      | inr flat => inr (dedup_seen [] flat, d')
      end
  end.

End ItemScheme.

(* ================================================================== *)
(** ** [_cc]: the role of a ContentConstraint *)

Inductive ConstraintRoleType := allowable | actual.

(** Modelled from the spec: [model.ConstraintRoleType[name]] (the enum of
    [sdmx.model], outside this source tree; the spec gives its members as
    [allowable] and [actual]); [None] is the [KeyError] of a missing member. *)
Definition ConstraintRoleType_lookup (name : string) : option ConstraintRoleType :=
  if String.eqb name "allowable" then Some allowable
  else if String.eqb name "actual" then Some actual
  else None.

(** The role [_cc] stores:
    [cr_str = elem.attrib["type"].lower().replace("allowed", "allowable")]
    and [model.ConstraintRoleType[cr_str]]. *)
Definition _cc_role (attrib : list (string * string)) : exn + ConstraintRoleType :=
  match attr_get "type" attrib with
  | None => inl KeyError
  | Some t =>
      let cr_str := Str.replace (Str.lower t) "allowed" "allowable" in
      match ConstraintRoleType_lookup cr_str with
      | Some r => inr r
      | None => inl KeyError
      end
  end.

(* ================================================================== *)
(** ** Module-level helpers of [sdmx.reader.sdmxml] *)

(** The character class [[A-Z]]. *)
Definition is_upper (c : ascii) : bool :=
  let n := nat_of_ascii c in ((65 <=? n) && (n <=? 90))%nat.

(** [TO_SNAKE_RE.sub(r"_\1", value)] with [TO_SNAKE_RE = re.compile("([A-Z]+)")]:
    scanning left to right, each maximal run of [[A-Z]] (the greedy [+]) is
    replaced by ['_'] followed by the run; [in_run] tells whether the
    previous character belonged to a run already replaced. *)
Fixpoint snake_sub (in_run : bool) (s : string) : string :=
  match s with
  | EmptyString => EmptyString
  | String c s' =>
      if is_upper c
      then if in_run then String c (snake_sub true s')
           else String "_" (String c (snake_sub true s'))
      else String c (snake_sub false s')
  end.

(** [to_snake(value)]: the substitution, then [.lower()]. *)
Definition to_snake (value : string) : string := Str.lower (snake_sub false value).

(** [s] has no letter [A]-[Z]. *)
Definition no_upper (s : string) : bool := Str.all_chars (fun c => negb (is_upper c)) s.

(** [s] with every occurrence of the character [d] removed. *)
Fixpoint strip_char (d : ascii) (s : string) : string :=
  match s with
  | EmptyString => EmptyString
  | String c s' => if Ascii.eqb c d then strip_char d s' else String c (strip_char d s')
  end.

(** [str.isspace()] on the characters 0-255: [\t \n \x0b \x0c \r], [\x1c]-[\x1f],
    space, [\x85] and [\xa0]. *)
Definition is_py_space (c : ascii) : bool :=
  let n := nat_of_ascii c in
  (((9 <=? n) && (n <=? 13)) || ((28 <=? n) && (n <=? 32)) || (n =? 133)
   || (n =? 160))%nat.

(** [s.split()]: the maximal runs of non-whitespace characters, in order;
    [cur] is the word being read. *)
Fixpoint py_split_aux (cur : string) (s : string) : list string :=
  match s with
  | EmptyString => if String.eqb cur "" then [] else [cur]
  | String c s' =>
      if is_py_space c
      then if String.eqb cur "" then py_split_aux "" s' else cur :: py_split_aux "" s'
      else py_split_aux (cur ++ String c "") s'
  end.

Definition py_split (s : string) : list string := py_split_aux "" s.

(** [Reader._clean()]: every bucket whose list is empty is popped. *)
Definition _clean (d : Stack) : Stack :=
  filter (fun kv => negb (Nat.eqb (length (snd kv)) 0)) d.

(** [Reader.pop_single(cls_or_name)]: [self.stack[cls_or_name].pop(-1)],
    [None] on [IndexError] (the defaultdict has created the bucket then). *)
Definition pop_single (k : key) (d : Stack) : value * Stack :=
  match pop_last k d with
  | Some (v, d') => (v, d')
  | None => (VNone, touch k d)
  end.

(** Python truthiness of a [cls_or_name] argument. *)
Definition key_truthy (k : key) : bool :=
  match k with KCls _ => true | KStr s => negb (String.eqb s "") end.

(** [Reader.pop_resolved_ref(cls, cls_or_name=None)]:
    [self.resolve(cls, self.pop_single(cls_or_name or cls))]. *)
Definition pop_resolved_ref (getitem : value -> option string -> exn + value)
           (c : pyclass) (cls_or_name : option key) (rd : Reader)
  : exn + (value * Reader) :=
  let k := match cls_or_name with
           | Some k => if key_truthy k then k else KCls c
           | None => KCls c
           end in
  let '(v, d') := pop_single k (stack rd) in
  resolve getitem c v (set_stack rd d').

(** [add_localizations(target, values)] on the localizations dict of
    [target]: [target.localizations.update({locale: label for locale, label
    in values})]. [values] is the list of (locale, label) pairs the callers
    pass ([pop_all] of the buckets [_localization] fills), so the first
    branch, for a bare 2-tuple, does not apply. *)
Section Localizations.
Variable L : Type.

Fixpoint loc_set (k : string) (v : L) (d : list (string * L)) : list (string * L) :=
  match d with
  | [] => [(k, v)]
  | (k', w) :: d' => if String.eqb k k' then (k', v) :: d' else (k', w) :: loc_set k v d'
  end.

Definition add_localizations (target : list (string * L)) (values : list (string * L))
  : list (string * L) :=
  let comp := fold_left (fun acc kv => loc_set (fst kv) (snd kv) acc) values [] in
  fold_left (fun acc kv => loc_set (fst kv) (snd kv) acc) comp target.

Fixpoint loc_get (k : string) (d : list (string * L)) : option L :=
  match d with
  | [] => None
  | (k', v) :: d' => if String.eqb k k' then Some v else loc_get k d'
  end.

End Localizations.

(** The part of [_facet] that reads [elem.attrib]: [attrib = copy(elem.attrib)],
    [fvt = attrib.pop("textType", "String")], the enum member name
    [fvt[0].lower() + fvt[1:]] ([IndexError] for an empty [fvt]), and the
    keyword arguments [{to_snake(key): val for key, val in attrib.items()}]
    of [model.FacetType] (a later key with the same snake-case form
    overwrites an earlier one in place, as [loc_set] does). *)
Definition _facet_args (attrib : list (string * string))
  : exn + (string * list (string * string)) :=
  let fvt := match attr_get "textType" attrib with Some t => t | None => "String" end in
  let rest := filter (fun kv => negb (String.eqb (fst kv) "textType")) attrib in
  let kw := fold_left (fun acc kv => loc_set string (to_snake (fst kv)) (snd kv) acc) rest [] in
  match fvt with
  | EmptyString => inl IndexError
  | String c s => inr (String (Str.lower_char c) s, kw)
  end.

(* ================================================================== *)
(** ** [Reader.annotable] ... [Reader.maintainable] *)

Section Artefacts.

(** Keyword-argument values: an attribute value ([str]) is [of_attr s]; a
    Python list is [of_list l]; [as_list v] is the list [v] is, when [v]
    has [.extend]. *)
Variable V : Type.
Variable of_attr : string -> V.
Variable of_list : list value -> V.
Variable as_list : V -> option (list value).

(** [**kwargs]: a dict with string keys, in insertion order. *)
Definition kwargs := list (string * V).

Fixpoint kw_get (k : string) (kw : kwargs) : option V :=
  match kw with
  | [] => None
  | (k', v) :: kw' => if String.eqb k k' then Some v else kw_get k kw'
  end.

(** [kw[k] = v]: in place when present, at the end otherwise. *)
Fixpoint kw_set (k : string) (v : V) (kw : kwargs) : kwargs :=
  match kw with
  | [] => [(k, v)]
  | (k', w) :: kw' => if String.eqb k k' then (k', v) :: kw' else (k', w) :: kw_set k v kw'
  end.

Definition kw_setdefault (k : string) (v : V) (kw : kwargs) : kwargs :=
  match kw_get k kw with Some _ => kw | None => kw_set k v kw end.

(** [setdefault_attrib(target, elem, *names)]; [elem] is [None] or the
    element's attributes. With [elem] [None], [elem.attrib] raises the
    [AttributeError] the outer [try] swallows, before any change. A missing
    attribute raises the [KeyError] the inner [try] swallows. *)
Definition setdefault_attrib (target : kwargs) (elem : option (list (string * string)))
           (names : list string) : kwargs :=
  match elem with
  | None => target
  | Some attrib =>
      fold_left (fun t name =>
                   match attr_get name attrib with
                   | Some v => kw_setdefault (to_snake name) (of_attr v) t
                   | None => t
                   end) names target
  end.

(** [annotable(cls, elem, ...)] up to the call of [cls] on the keyword
    arguments: the keyword
    arguments [cls] receives and the stack left. [kwargs["annotations"]] is
    read, and its [.extend] looked up, before [pop_all] runs. *)
Definition annotable (elem : option (list (string * string))) (kw : kwargs) (d : Stack)
  : exn + (kwargs * Stack) :=
  match elem with
  | None => inr (kw, d)
  | Some _ =>
      let kw1 := kw_setdefault "annotations" (of_list []) kw in
      match kw_get "annotations" kw1 with
      | None => inl KeyError
      | Some x =>
          match as_list x with
          | None => inl AttributeError
          | Some l =>
              match pop_all (QCls Annotation) d with
              | inl e => inl e
              | inr (anns, d1) => inr (kw_set "annotations" (of_list (l ++ anns)%list) kw1, d1)
              end
          end
      end
  end.

Definition identifiable (elem : option (list (string * string))) (kw : kwargs) (d : Stack)
  : exn + (kwargs * Stack) :=
  annotable elem (setdefault_attrib kw elem ["id"]) d.

(** [nameable]: after the object is built, the [Name] and then the
    [Description] localizations are popped, for [add_localizations] on its
    [name] and [description]. Result: the keyword arguments, the popped
    [Name] and [Description] values, and the stack. *)
Definition nameable (elem : option (list (string * string))) (kw : kwargs) (d : Stack)
  : exn + (kwargs * list value * list value * Stack) :=
  match identifiable elem kw d with
  | inl e => inl e
  | inr (kw', d1) =>
      match elem with
      | None => inr (kw', [], [], d1)
      | Some _ =>
          match pop_all (QStr "Name") d1 with
          | inl e => inl e
          | inr (names, d2) =>
              match pop_all (QStr "Description") d2 with
              | inl e => inl e
              | inr (descs, d3) => inr (kw', names, descs, d3)
              end
          end
      end
  end.

Definition versionable (elem : option (list (string * string))) (kw : kwargs) (d : Stack)
  : exn + (kwargs * list value * list value * Stack) :=
  nameable elem (setdefault_attrib kw elem ["version"]) d.

Definition maintainable (elem : option (list (string * string))) (kw : kwargs) (d : Stack)
  : exn + (kwargs * list value * list value * Stack) :=
  versionable elem
    (setdefault_attrib kw elem ["isExternalReference"; "isFinal"; "uri"; "urn"]) d.

End Artefacts.

(* ================================================================== *)
(** ** The [PARSE] table: [to_tags], [start] and [end] *)

Section Registry.
Variable Elem : Type.

(** [qname] of [sdmx.format.xml] (outside this source tree): the qualified
    tag of a ["prefix:name"] string. *)
Variable qname : string -> string.

(** [to_tags] on its arguments [args]. *)
Definition to_tags (args : list string) : list string :=
  concat (map (fun arg => map qname (py_split arg)) args).

Definition event_eqb (e1 e2 : event) : bool :=
  match e1, e2 with
  | EvStart, EvStart | EvEnd, EvEnd => true
  | _, _ => false
  end.

(** [PARSE[tag, ev] = f] ([f] is [None] for an explicit no-op). *)
Definition reg_set (tag : string) (ev : event) (f : option (handler Elem))
           (P : registry Elem) : registry Elem :=
  fun t e => if String.eqb tag t && event_eqb ev e then Some f else P t e.

(** The decorator [start] with arguments [args] and [only], applied to [func]. *)
Definition start_ (args : list string) (only : bool) (func : handler Elem)
           (P : registry Elem) : registry Elem :=
  fold_left (fun P tag =>
               let P1 := reg_set tag EvStart (Some func) P in
               if only then reg_set tag EvEnd None P1 else P1) (to_tags args) P.

(** The decorator [end] with arguments [args] and [only], applied to [func]. *)
Definition end_ (args : list string) (only : bool) (func : handler Elem)
           (P : registry Elem) : registry Elem :=
  fold_left (fun P tag =>
               let P1 := reg_set tag EvEnd (Some func) P in
               if only then reg_set tag EvStart None P1 else P1) (to_tags args) P.

End Registry.

(* ================================================================== *)
(** ** Predicates used by the lemmas and statements *)

(** [w] has an [id] attribute, different from [s]. *)
Definition id_differs (s : string) (w : value) : Prop :=
  exists i, attr_id w = inr i /\ i <> Some s.



(** [p] does not accept the first character of [s] (or [s] is empty). *)
Definition stops (p : ascii -> bool) (s : string) : bool :=
  match s with
  | EmptyString => true
  | String c _ => negb (p c)
  end.

(* ================================================================== *)
(** ** Example inputs *)

(** A small dispatch table over elements given by their tag: the wrapper
    [com:Annotations] is an explicit no-op, the start of [mes:Structure]
    creates a StructureMessage. *)
Definition demo_message_handler : handler string :=
  fun rd _ =>
    inr (VObj {| ident := next_ident rd; ocls := StructureMessage; oid := NoIdAttr;
                 is_external_reference := false; children := [] |},
         {| stack := stack rd; ignore := ignore rd; next_ident := S (next_ident rd) |}).

Definition demo_PARSE : registry string :=
  fun tag ev =>
    if String.eqb tag "{com}Annotations" then Some None
    else if String.eqb tag "{mes}Structure" then
      match ev with
      | EvStart => Some (Some demo_message_handler)
      | EvEnd => Some None
      end
    else None.


Definition codelist_B : obj :=
  {| ident := 7; ocls := Codelist; oid := IdStr "CL_B";
     is_external_reference := false; children := [] |}.

Definition obj_a : obj :=
  {| ident := 1; ocls := Code; oid := IdStr "a";
     is_external_reference := false; children := [] |}.


(** [p in s] for strings. *)
Fixpoint occurs (p s : string) : bool :=
  Str.starts_with p s ||
  match s with EmptyString => false | String _ s' => occurs p s' end.

(** [l1] is [l2] with some elements left out, in order. *)
Inductive subseq {A : Type} : list A -> list A -> Prop :=
| subseq_nil : subseq [] []
| subseq_keep x l1 l2 : subseq l1 l2 -> subseq (x :: l1) (x :: l2)
| subseq_skip x l1 l2 : subseq l1 l2 -> subseq l1 (x :: l2).

(** C1: a [mes:Structure] element leaves its message as the one entry. *)
Definition demo_msg : obj :=
  {| ident := 0; ocls := StructureMessage; oid := NoIdAttr;
     is_external_reference := false; children := [] |}.

Definition demo_events : list (event * string) :=
  [(EvStart, "{mes}Structure"); (EvEnd, "{mes}Structure")].

Definition demo_rd : Reader :=
  {| stack := [(KCls StructureMessage, [VObj demo_msg])]; ignore := [IdOfNone];
     next_ident := 1 |}.

(** C3: a Code referenced by URN. *)
Definition demo_get_class (name : string) (_ : option string) : exn + option pyclass :=
  if String.eqb name "Code" then inr (Some Code) else inr None.

Definition demo_parent_class (c : pyclass) : exn + pyclass :=
  match c with Code => inr Codelist | _ => inl KeyError end.

Definition demo_urn : string := "urn:sdmx:org.sdmx.infomodel.codelist.Code=ECB:CL_FREQ(1.0).A".

Definition demo_ref_elem : xml :=
  XElem "{str}Enumeration" [] None [XElem "URN" [] (Some demo_urn) []].

Definition demo_ref : Ref.Reference :=
  {| Ref.maintainable := false; Ref.child_cls := Code; Ref.child_id := Some "A";
     Ref.cls := Codelist; Ref.id := Some "CL_FREQ"; Ref.version := Some "1.0" |}.

(** C4: a Codelist not on the (empty) stack. *)
Definition empty_rd : Reader := {| stack := []; ignore := []; next_ident := 0 |}.

(** C7: a stack with a [Name] bucket and a Code bucket. *)
Definition demo_code : obj :=
  {| ident := 3; ocls := Code; oid := IdStr "A";
     is_external_reference := false; children := [] |}.

Definition demo_stack : Stack :=
  [(KStr "Name", [VStr "x"]); (KCls Code, [VObj demo_code])].

(** C9: a Code with a child Code, popped twice. *)
Definition demo_child : obj :=
  {| ident := 5; ocls := Code; oid := IdStr "B";
     is_external_reference := false; children := [] |}.

Definition demo_parent : obj :=
  {| ident := 4; ocls := Code; oid := IdStr "A";
     is_external_reference := false; children := [demo_child] |}.

Definition ident_key (v : value) : nat :=
  match v with VObj o => ident o | _ => 0%nat end.

(* ================================================================== *)
(** ** Lemmas on the URN codec *)

Module UrnFacts.
Import Urn.

Lemma length_append (x r : string) :
  String.length (x ++ r) = (String.length x + String.length r)%nat.
Proof. induction x as [|c x IH]; simpl; [reflexivity | now rewrite IH]. Qed.

Lemma take_append (x r : string) : Str.take (String.length x) (x ++ r) = x.
Proof. induction x as [|c x IH]; simpl; [reflexivity | now rewrite IH]. Qed.

Lemma take_captured (x r : string) :
  Str.take (String.length (x ++ r) - String.length r) (x ++ r) = x.
Proof.
  rewrite length_append, Nat.add_sub. apply take_append.
Qed.


(** Greedy star over a maximal run: if the continuation succeeds right after
    the whole run [x], the star succeeds with that result. *)
Lemma m_star_greedy (p : ascii -> bool) (x rest : string) e k res :
  Str.all_chars p x = true -> stops p rest = true ->
  k rest e = Some res -> m_star p (x ++ rest) e k = Some res.
Proof.
  intros Hx Hstop Hk. induction x as [|c x IH]; simpl in *.
  - destruct rest as [|c r]; simpl in *; [exact Hk |].
    destruct (p c); [discriminate | exact Hk].
  - apply andb_prop in Hx as [Hc Hx]. rewrite Hc, (IH Hx). reflexivity.
Qed.

End UrnFacts.

Module UrnRoundTrip.
Import Urn UrnFacts.



(** [match] on a URN with an item id. *)
Example urn_match_example :
  match_ "urn:sdmx:org.sdmx.infomodel.codelist.Code=ECB:CL_FREQ(1.0).A"
  = Some {| package := Some "codelist"; class := Some "Code";
            agency := Some "ECB"; id := Some "CL_FREQ";
            version := Some "1.0"; item_id := Some "A" |}.
Proof. vm_compute. reflexivity. Qed.


End UrnRoundTrip.

(* ================================================================== *)
(** ** Lemmas on the working stack *)

Module StackFacts.

Lemma pyclass_beq_iff (a b : pyclass) : pyclass_beq a b = true <-> a = b.
Proof.
  split; [apply internal_pyclass_dec_bl | intros ->; now apply internal_pyclass_dec_lb].
Qed.

Lemma key_eqb_iff (a b : key) : key_eqb a b = true <-> a = b.
Proof.
  destruct a as [c1|s1], b as [c2|s2]; simpl; split; intro H; try discriminate.
  - apply pyclass_beq_iff in H. now subst.
  - injection H as ->. now apply pyclass_beq_iff.
  - apply String.eqb_eq in H. now subst.
  - injection H as ->. apply String.eqb_refl.
Qed.

Lemma key_eqb_refl (a : key) : key_eqb a a = true.
Proof. now apply key_eqb_iff. Qed.

Lemma key_eqb_false (a b : key) : a <> b -> key_eqb a b = false.
Proof.
  intros H. destruct (key_eqb a b) eqn:E; [|reflexivity].
  apply key_eqb_iff in E. contradiction.
Qed.

Lemma dict_get_notin (k : key) (d : Stack) :
  ~ In k (map fst d) -> dict_get k d = None.
Proof.
  induction d as [|[k' vs] d IH]; simpl; [reflexivity|].
  intros Hn. rewrite key_eqb_false by (intros ->; auto). auto.
Qed.

Lemma dict_get_app_notin (k : key) (pre d : Stack) :
  ~ In k (map fst pre) -> dict_get k (pre ++ d)%list = dict_get k d.
Proof.
  induction pre as [|[k' vs] pre IH]; simpl; [reflexivity|].
  intros Hn. rewrite key_eqb_false by (intros ->; auto). auto.
Qed.

Lemma dict_remove_notin (k : key) (d : Stack) :
  ~ In k (map fst d) -> dict_remove k d = d.
Proof.
  induction d as [|[k' vs] d IH]; simpl; [reflexivity|].
  intros Hn. rewrite key_eqb_false by (intros ->; auto). f_equal. auto.
Qed.

Lemma dict_remove_app_notin (k : key) (pre d : Stack) :
  ~ In k (map fst pre) -> dict_remove k (pre ++ d)%list = (pre ++ dict_remove k d)%list.
Proof.
  induction pre as [|[k' vs] pre IH]; simpl; [reflexivity|].
  intros Hn. rewrite key_eqb_false by (intros ->; auto). f_equal. auto.
Qed.

Lemma dict_get_remove_other (k k' : key) (d : Stack) :
  k' <> k -> dict_get k' (dict_remove k d) = dict_get k' d.
Proof.
  intros Hne. induction d as [|[k0 vs] d IH]; simpl; [reflexivity|].
  destruct (key_eqb k k0) eqn:E.
  - apply key_eqb_iff in E; subst k0. rewrite key_eqb_false by exact Hne. exact IH.
  - simpl. now rewrite IH.
Qed.

Lemma dict_get_remove_same (k : key) (d : Stack) : dict_get k (dict_remove k d) = None.
Proof.
  induction d as [|[k0 vs] d IH]; simpl; [reflexivity|].
  destruct (key_eqb k k0) eqn:E; [exact IH|]. simpl. now rewrite E.
Qed.

Lemma dict_get_filter (p : key -> bool) (k : key) (d : Stack) :
  dict_get k (filter (fun kv => p (fst kv)) d) = if p k then dict_get k d else None.
Proof.
  induction d as [|[k0 vs] d IH]; simpl; [now destruct (p k)|].
  destruct (key_eqb k k0) eqn:E.
  - apply key_eqb_iff in E; subst k0. destruct (p k) eqn:Pk; simpl.
    + now rewrite key_eqb_refl.
    + exact IH.
  - destruct (p k0); simpl; [rewrite E|]; exact IH.
Qed.

(** The comprehension of [pop_all] from a state [pre ++ d], where the keys
    of [d] are still to be visited. *)
Lemma pop_keys_spec (c : pyclass) (d pre : Stack) :
  NoDup (map fst (pre ++ d)%list) ->
  pop_keys c (map fst d) (pre ++ d)%list
  = inr (map (fun kv => if matching_class c (fst kv) then snd kv else []) d,
         (pre ++ filter (fun kv => negb (matching_class c (fst kv))) d)%list).
Proof.
  revert pre. induction d as [|[k vs] d IH]; intros pre Hnd.
  - simpl. now rewrite app_nil_r.
  - pose proof Hnd as Hnd0.
    rewrite map_app in Hnd. simpl in Hnd.
    apply NoDup_remove in Hnd as [Hnd Hk]. rewrite in_app_iff in Hk.
    rewrite <- map_app in Hnd.
    simpl. destruct (matching_class c k) eqn:M; simpl.
    + rewrite dict_get_app_notin by tauto. simpl. rewrite key_eqb_refl.
      rewrite dict_remove_app_notin by tauto. simpl. rewrite key_eqb_refl.
      rewrite dict_remove_notin by tauto.
      rewrite IH by exact Hnd. reflexivity.
    + specialize (IH (pre ++ [(k, vs)])%list).
      rewrite <- app_assoc in IH. simpl in IH.
      rewrite IH; [now rewrite <- app_assoc|exact Hnd0].
Qed.

Lemma concat_select (c : pyclass) (d : Stack) :
  concat (map (fun kv => if matching_class c (fst kv) then snd kv else []) d)
  = concat (map snd (filter (fun kv => matching_class c (fst kv)) d)).
Proof.
  induction d as [|[k vs] d IH]; simpl; [reflexivity|].
  destruct (matching_class c k); simpl; now rewrite IH.
Qed.

End StackFacts.

(* ================================================================== *)
(** ** C7: [pop_all] *)

Module PopAll.
Import StackFacts.

(** C7. [pop_all(s)] with a string key removes the bucket [s] and returns
    its values in insertion order, leaving every other bucket as it was;
    [pop_all(C)] with a class removes exactly the buckets keyed by
    subclasses of [C] and returns the concatenation of their values in the
    order the buckets were registered, leaving string buckets and other
    class buckets as they were. *)
Theorem pop_all_buckets (d : Stack) (Hwf : wf d) :
  (forall s,
     pop_all (QStr s) d = inr (bucket (KStr s) d, dict_remove (KStr s) d)
     /\ dict_get (KStr s) (dict_remove (KStr s) d) = None
     /\ (forall k, k <> KStr s -> dict_get k (dict_remove (KStr s) d) = dict_get k d))
  /\
  (forall c,
     pop_all (QCls c) d
       = inr (concat (map snd (filter (fun kv => matching_class c (fst kv)) d)),
              filter (fun kv => negb (matching_class c (fst kv))) d)
     /\ (forall k,
           dict_get k (filter (fun kv => negb (matching_class c (fst kv))) d)
           = if matching_class c k then None else dict_get k d)).
Proof.
  split.
  - intros s. split; [reflexivity|]. split.
    + apply dict_get_remove_same.
    + intros k Hk. now apply dict_get_remove_other.
  - intros c. split.
    + unfold pop_all.
      pose proof (pop_keys_spec c d [] Hwf) as H. simpl in H. rewrite H.
      now rewrite concat_select.
    + intros k. rewrite (dict_get_filter (fun k => negb (matching_class c k))).
      now destruct (matching_class c k).
Qed.

End PopAll.

(* ================================================================== *)
(** ** C10: [get] with an id *)

Module GetById.

Lemma opt_str_eqb_iff (a b : option string) : opt_str_eqb a b = true <-> a = b.
Proof.
  destruct a as [x|], b as [y|]; simpl; split; intro H; try discriminate; auto.
  - apply String.eqb_eq in H. now subst.
  - injection H as ->. apply String.eqb_refl.
Qed.

Lemma scan_id_some (s : string) (l : list value) (v : value) :
  scan_id s l = inr (Some v) ->
  exists pre post, l = (pre ++ v :: post)%list /\ attr_id v = inr (Some s)
                   /\ Forall (id_differs s) pre.
Proof.
  induction l as [|w l IH]; simpl; [discriminate|].
  destruct (attr_id w) as [e|i] eqn:Ew; [discriminate|].
  destruct (opt_str_eqb i (Some s)) eqn:Eq.
  - intros H. injection H as <-. apply opt_str_eqb_iff in Eq. subst i.
    exists [], l. split; [reflexivity|]. split; [exact Ew | constructor].
  - intros H. destruct (IH H) as (pre & post & -> & Hv & Hpre).
    exists (w :: pre), post. split; [reflexivity|]. split; [exact Hv|].
    constructor; [|exact Hpre]. exists i. split; [exact Ew|].
    intros ->. now rewrite (proj2 (opt_str_eqb_iff _ _) eq_refl) in Eq.
Qed.

Lemma scan_id_none (s : string) (l : list value) :
  scan_id s l = inr None <-> Forall (id_differs s) l.
Proof.
  induction l as [|w l IH]; simpl.
  - split; [constructor | reflexivity].
  - destruct (attr_id w) as [e|i] eqn:Ew.
    + split; [discriminate|]. intros H. inversion H as [|? ? [i [Hi _]] _]; subst.
      congruence.
    + destruct (opt_str_eqb i (Some s)) eqn:Eq.
      * split; [discriminate|]. intros H. inversion H as [|? ? [i' [Hi Hne]] _]; subst.
        rewrite Ew in Hi. injection Hi as <-. apply opt_str_eqb_iff in Eq. contradiction.
      * rewrite IH. split.
        -- intros H. constructor; [|exact H]. exists i. split; [exact Ew|].
           intros ->. now rewrite (proj2 (opt_str_eqb_iff _ _) eq_refl) in Eq.
        -- intros H. now inversion H.
Qed.

Lemma scan_id_total (s : string) (l : list value) :
  Forall (fun w => exists i, attr_id w = inr i) l -> exists r, scan_id s l = inr r.
Proof.
  induction l as [|w l IH]; simpl; intros H; [eauto|].
  inversion H as [|? ? [i Hi] Hl]; subst. rewrite Hi.
  destruct (opt_str_eqb i (Some s)); eauto.
Qed.

Lemma get_nonempty (q : query) (s : string) (strict : bool) (d : Stack) :
  s <> "" -> get q (Some s) strict d = scan_id s (get_results q strict d).
Proof.
  intros Hs. unfold get, truthy_str.
  destruct (String.eqb s "") eqn:E; [apply String.eqb_eq in E; contradiction|].
  reflexivity.
Qed.

Lemma attr_id_error (w : value) (e : exn) : attr_id w = inl e -> e = AttributeError.
Proof. destruct w as [| o | | | |]; simpl; try destruct (oid o); congruence. Qed.

Lemma scan_id_error (s : string) (l : list value) (e : exn) :
  scan_id s l = inl e -> e = AttributeError.
Proof.
  induction l as [|w l IH]; simpl; [discriminate|].
  destruct (attr_id w) as [e'|i] eqn:Ew.
  - intros H. injection H as <-. exact (attr_id_error w e' Ew).
  - destruct (opt_str_eqb i (Some s)); [discriminate | exact IH].
Qed.

Lemma scan_id_prefix (s : string) (pre l : list value) :
  Forall (id_differs s) pre -> scan_id s (pre ++ l)%list = scan_id s l.
Proof.
  induction 1 as [|w pre [i [Hi Hne]] _ IH]; [reflexivity|].
  simpl. rewrite Hi.
  destruct (opt_str_eqb i (Some s)) eqn:Eq; [|exact IH].
  apply opt_str_eqb_iff in Eq. contradiction.
Qed.

(** C10, as the code has it. [get(key, id)] with a non-empty [id] returns
    [v] exactly when [v] is the first object of the matched bucket(s)
    whose [id] attribute equals [id] (every object before it has an [id]
    attribute that differs; what follows it is not looked at); it returns
    [None], without raising, exactly when every object of the matched
    bucket(s) has an [id] attribute different from [id], in particular
    when the bucket does not exist; it raises [AttributeError] when it
    reaches a value with no [id] attribute before a match, and raises
    nothing else. With the empty (falsy) [id], or with no [id], nothing is
    looked up: [get] returns the single value of the matched bucket(s), or
    [None] if there is not exactly one. *)
Theorem get_with_id (q : query) (strict : bool) (d : Stack) :
  (forall s, s <> "" ->
     (forall v, get q (Some s) strict d = inr (Some v) <->
        exists pre post, get_results q strict d = (pre ++ v :: post)%list
          /\ attr_id v = inr (Some s) /\ Forall (id_differs s) pre)
     /\ (get q (Some s) strict d = inr None
         <-> Forall (id_differs s) (get_results q strict d))
     /\ (forall pre w post, get_results q strict d = (pre ++ w :: post)%list ->
           Forall (id_differs s) pre -> (exists e, attr_id w = inl e) ->
           get q (Some s) strict d = inl AttributeError)
     /\ (forall e, get q (Some s) strict d = inl e -> e = AttributeError)
     /\ (forall k, q = QStr k -> dict_get (KStr k) d = None ->
           get q (Some s) strict d = inr None))
  /\ get q (Some "") strict d = inr (single (get_results q strict d))
  /\ get q None strict d = inr (single (get_results q strict d)).
Proof.
  split; [|split; reflexivity].
  intros s Hs. rewrite (get_nonempty q s strict d Hs).
  split; [|split; [|split; [|split]]].
  - intros v. split; [apply scan_id_some|].
    intros (pre & post & -> & Hv & Hpre).
    rewrite (scan_id_prefix s pre _ Hpre). simpl. rewrite Hv.
    now rewrite (proj2 (opt_str_eqb_iff _ _) eq_refl).
  - apply scan_id_none.
  - intros pre w post -> Hpre [e He].
    rewrite (scan_id_prefix s pre _ Hpre). simpl. rewrite He.
    now rewrite (attr_id_error w e He).
  - apply scan_id_error.
  - intros k -> Hk. simpl. unfold bucket. now rewrite Hk.
Qed.

(** C10 fails twice: with the id [""] (falsy in [if id:]) the single object
    of the bucket is returned although its id is ["a"]; and when the bucket
    holds a value without an [id] attribute (a tuple here), [get] raises
    [AttributeError] instead of returning [None]. *)
Lemma get_with_id_counterexample :
  get (QStr "X") (Some "") false [(KStr "X", [VObj obj_a])] = inr (Some (VObj obj_a))
  /\ get (QStr "X") (Some "b") false [(KStr "X", [VTuple []; VObj obj_a])]
     = inl AttributeError.
Proof. split; vm_compute; reflexivity. Qed.

End GetById.

(* ================================================================== *)
(** ** C8: [stash] and [unstash] *)

Module Stash.
Import StackFacts.

Lemma bucket_extend (k k' : key) (vs : list value) (d : Stack) :
  bucket k (extend_to k' vs d) = if key_eqb k k' then (bucket k d ++ vs)%list else bucket k d.
Proof.
  unfold bucket. induction d as [|[k0 ws] d IH]; simpl.
  - destruct (key_eqb k k'); reflexivity.
  - destruct (key_eqb k' k0) eqn:E0; simpl.
    + apply key_eqb_iff in E0; subst k0.
      destruct (key_eqb k k'); reflexivity.
    + destruct (key_eqb k k0) eqn:E1.
      * apply key_eqb_iff in E1; subst k0.
        destruct (key_eqb k k') eqn:E2; [|reflexivity].
        apply key_eqb_iff in E2; subst k'. now rewrite key_eqb_refl in E0.
      * exact IH.
Qed.

Lemma bucket_remove (k k' : key) (d : Stack) :
  bucket k (dict_remove k' d) = if key_eqb k k' then [] else bucket k d.
Proof.
  unfold bucket. destruct (key_eqb k k') eqn:E.
  - apply key_eqb_iff in E; subst k'. now rewrite dict_get_remove_same.
  - rewrite dict_get_remove_other; [reflexivity|].
    intros ->. now rewrite key_eqb_refl in E.
Qed.

Lemma dict_get_map_at (k k'' : key) (nv : list value) (d : Stack) :
  dict_get k'' (map (fun kv => if key_eqb k (fst kv) then (fst kv, nv) else kv) d)
  = if key_eqb k'' k then option_map (fun _ => nv) (dict_get k d) else dict_get k'' d.
Proof.
  induction d as [|[k0 ws] d IH]; simpl; [now destruct (key_eqb k'' k)|].
  destruct (key_eqb k k0) eqn:E; simpl.
  - apply key_eqb_iff in E; subst k0.
    destruct (key_eqb k'' k) eqn:E2; simpl; rewrite ?E2; [reflexivity|exact IH].
  - destruct (key_eqb k'' k0) eqn:E1.
    + apply key_eqb_iff in E1; subst k0.
      destruct (key_eqb k'' k) eqn:E2; [|reflexivity].
      apply key_eqb_iff in E2; subst k''. now rewrite key_eqb_refl in E.
    + exact IH.
Qed.

Lemma pop_last_bucket (k : key) (d d' : Stack) (v : value) :
  pop_last k d = Some (v, d') ->
  bucket k d = (bucket k d' ++ [v])%list /\
  (forall k'', k'' <> k -> bucket k'' d' = bucket k'' d).
Proof.
  unfold pop_last. destruct (rev (bucket k d)) as [|w rvs] eqn:Er; [discriminate|].
  intros H. injection H as <- <-.
  assert (Hd : exists vs, dict_get k d = Some vs).
  { unfold bucket in Er. destruct (dict_get k d); [eauto|discriminate]. }
  destruct Hd as [vs Hvs].
  split.
  - unfold bucket at 2. rewrite dict_get_map_at, key_eqb_refl, Hvs. simpl.
    rewrite <- (rev_involutive (bucket k d)), Er. reflexivity.
  - intros k'' Hne. unfold bucket. rewrite dict_get_map_at.
    now rewrite key_eqb_false by exact Hne.
Qed.







Lemma bucket_touch (k k' : key) (d : Stack) : bucket k (touch k' d) = bucket k d.
Proof.
  unfold touch. rewrite bucket_extend. destruct (key_eqb k k'); [apply app_nil_r|reflexivity].
Qed.





Lemma named_in (ks : list string) (s : string) :
  existsb (String.eqb s) ks = true <-> In s ks.
Proof.
  rewrite existsb_exists. split.
  - intros [x [Hx Hs]]. apply String.eqb_eq in Hs. now subst.
  - intros H. exists s. split; [exact H | apply String.eqb_refl].
Qed.



End Stash.

Module StashClaim.
Import Stash.



End StashClaim.

(* ================================================================== *)
(** ** C1, C2: the driver *)

Module DriverFacts.

Section Generic.
Variable Elem : Type.
Variable elem_tag : Elem -> string.
Variable PARSE : registry Elem.

Lemma run_app (rd : Reader) (pre post : list (event * Elem)) :
  run Elem elem_tag PARSE rd (pre ++ post)%list
  = match run Elem elem_tag PARSE rd pre with
    | inl e => inl e
    | inr rd' => run Elem elem_tag PARSE rd' post
    end.
Proof.
  revert rd. induction pre as [|[ev el] pre IH]; intros rd; simpl; [reflexivity|].
  destruct (PARSE (elem_tag el) ev) as [[h|]|]; [|apply IH|reflexivity].
  destruct (h rd el) as [e|[res rd']]; [reflexivity|apply IH].
Qed.

End Generic.

End DriverFacts.

Module Driver.
Import DriverFacts.

(** C2. When the loop reaches a (tag, event) pair with no entry in [PARSE],
    [read_message] raises [XMLParseError] caused by
    [NotImplementedError(tag, event)]; a pair registered as an explicit no-op
    is skipped and leaves the reader as it was. *)
Theorem unknown_pair_fatal (Elem : Type) (elem_tag : Elem -> string) (PARSE : registry Elem) :
  (forall dsd pre ev el post rd,
     run Elem elem_tag PARSE (init_reader dsd) pre = inr rd ->
     PARSE (elem_tag el) ev = None ->
     read_message Elem elem_tag PARSE (pre ++ (ev, el) :: post)%list dsd
     = inl (XMLParseError (NotImplementedError (elem_tag el) ev)))
  /\
  (forall rd ev el rest,
     PARSE (elem_tag el) ev = Some None ->
     run Elem elem_tag PARSE rd ((ev, el) :: rest) = run Elem elem_tag PARSE rd rest).
Proof.
  split.
  - intros dsd pre ev el post rd Hpre Hnone. unfold read_message.
    rewrite run_app, Hpre. simpl. now rewrite Hnone.
  - intros rd ev el rest Hskip. simpl. now rewrite Hskip.
Qed.

(** C1, as the code has it: once the stream has been consumed without
    error, [read_message] raises [RuntimeError] when more than one
    non-ignored entry is left on the stack, and otherwise (one entry, or
    none at all) raises nothing and returns [get(Message)]: the single value
    of the Message buckets, or [None] when there is not exactly one. *)
Theorem read_message_uncollected (Elem : Type) (elem_tag : Elem -> string)
  (PARSE : registry Elem) (evs : list (event * Elem)) (dsd : option obj) (rd : Reader)
  (Hrun : run Elem elem_tag PARSE (init_reader dsd) evs = inr rd) :
  ((2 <= non_ignored rd)%nat ->
     read_message Elem elem_tag PARSE evs dsd
     = inl (RuntimeError (Z.of_nat (non_ignored rd) - 1)))
  /\
  ((non_ignored rd <= 1)%nat ->
     read_message Elem elem_tag PARSE evs dsd
     = inr (single (get_results (QCls Message) false (stack rd))))
  /\
  (forall v, get_results (QCls Message) false (stack rd) = [v] ->
     (non_ignored rd <= 1)%nat -> read_message Elem elem_tag PARSE evs dsd = inr (Some v)).
Proof.
  unfold read_message. rewrite Hrun. unfold finish.
  split; [|split].
  - intros H. replace (Z.of_nat (non_ignored rd) - 1 >? 0)%Z with true; [reflexivity|].
    symmetry. apply Z.gtb_lt. lia.
  - intros H. replace (Z.of_nat (non_ignored rd) - 1 >? 0)%Z with false; [reflexivity|].
    symmetry. rewrite Z.gtb_ltb. apply Z.ltb_ge. lia.
  - intros v Hv H. replace (Z.of_nat (non_ignored rd) - 1 >? 0)%Z with false.
    + unfold get. now rewrite Hv.
    + symmetry. rewrite Z.gtb_ltb. apply Z.ltb_ge. lia.
Qed.

(** C1 fails: a document made of a [com:Annotations] wrapper leaves no
    non-ignored entry, and [read_message] returns [None] instead of
    failing. *)
Lemma read_message_empty_counterexample :
  run string (fun t => t) demo_PARSE (init_reader None)
      [(EvStart, "{com}Annotations"); (EvEnd, "{com}Annotations")]
  = inr (init_reader None)
  /\ non_ignored (init_reader None) = 0%nat
  /\ read_message string (fun t => t) demo_PARSE
       [(EvStart, "{com}Annotations"); (EvEnd, "{com}Annotations")] None
     = inr None.
Proof. vm_compute. split; [reflexivity|split; reflexivity]. Qed.

End Driver.

(* ================================================================== *)
(** ** C3: the fields of a Reference *)

Module ReferenceFacts.

Section WithModel.
Variable get_class : string -> option string -> exn + option pyclass.
Variable parent_class : pyclass -> exn + pyclass.

Lemma reference_finish_fields hint m cc cid i v r :
  reference_finish parent_class hint m cc cid i v = inr r ->
  (issubclass (Ref.child_cls r) MaintainableArtefact = true ->
     Ref.maintainable r = true /\ Ref.cls r = Ref.child_cls r /\ Ref.id r = Ref.child_id r)
  /\
  (issubclass (Ref.child_cls r) MaintainableArtefact = false ->
     Ref.maintainable r = false /\ parent_class (Ref.child_cls r) = inr (Ref.cls r) /\
     (forall g, m = Some g -> Ref.child_id r = Urn.item_id g)).
Proof.
  unfold reference_finish.
  destruct (match hint, cc with
            | Some h, Some c => inr (Some (if issubclass h c then h else c))
            | Some _, None => inl TypeError
            | None, c => inr c
            end) as [e|[c|]]; try discriminate.
  destruct (issubclass c MaintainableArtefact) eqn:Ec.
  - intros H. injection H as <-. simpl. split; [auto|]. intros H. congruence.
  - destruct (parent_class c) as [e|pc] eqn:Epc; [discriminate|].
    intros H. injection H as <-. simpl. split; [intros H; congruence|].
    split; [reflexivity|]. split; [exact Epc|]. intros g ->. reflexivity.
Qed.

(** How a Reference is built: from a [<Ref>] first child, or from a
    [<URN>] first child whose text the URN pattern matches. *)
Lemma reference_init_cases elem hint r :
  Reference_init get_class parent_class elem hint = inr r ->
  (exists h cc cid i v, reference_finish parent_class h None cc cid i v = inr r /\
     exists ptag pa ptext ca ctext ck rest,
       elem = XElem ptag pa ptext (XElem "Ref" ca ctext ck :: rest))
  \/
  (exists h cc t g, reference_finish parent_class h (Some g) cc (Urn.id g) (Urn.id g)
                      (Urn.version g) = inr r /\ Urn.match_ t = Some g /\
     exists ptag pa ptext ca ck rest,
       elem = XElem ptag pa ptext (XElem "URN" ca (Some t) ck :: rest)).
Proof.
  destruct elem as [ptag pa ptext kids].
  destruct kids as [|[ctag ca ctext ck] rest]; [discriminate|].
  unfold Reference_init.
  destruct (match hint with
            | Some h => if String.eqb h "" then inr None else get_sdmx_class get_class h None
            | None => inr None
            end) as [e|h]; [discriminate|].
  destruct (String.eqb ctag "Ref") eqn:Eref.
  - apply String.eqb_eq in Eref. subst ctag.
    destruct (attr_get "id" ca) as [cid|]; [|discriminate].
    match goal with |- (match ?x with _ => _ end) = _ -> _ => destruct x as [e|cc] end;
      [discriminate|].
    intros H. left. do 5 eexists. split; [exact H|]. eauto 10.
  - destruct (String.eqb ctag "URN") eqn:Eurn; [|discriminate].
    apply String.eqb_eq in Eurn. subst ctag.
    destruct ctext as [t|]; [|discriminate].
    destruct (Urn.match_ t) as [g|] eqn:Eg; [|discriminate].
    match goal with |- (match ?x with _ => _ end) = _ -> _ => destruct x as [e|cc] end;
      [discriminate|].
    intros H. right. exists h, cc, t, g. split; [exact H|]. split; [exact Eg|]. eauto 10.
Qed.

End WithModel.
End ReferenceFacts.

Module ReferenceClaim.
Import ReferenceFacts.

(** C3. A successfully built Reference whose (resolved) target class is a
    subclass of MaintainableArtefact is maintainable, with [cls = child_cls]
    and [id = child_id]; otherwise it is not maintainable, [cls] is
    [parent_class(child_cls)], and a Reference built from a [<URN>] child
    has as [child_id] the [item_id] decoded from the URN. This holds
    whatever [model.get_class] and [model.parent_class] are. *)
Theorem reference_fields
  (get_class : string -> option string -> exn + option pyclass)
  (parent_class : pyclass -> exn + pyclass)
  (elem : xml) (hint : option string) (r : Ref.Reference)
  (H : Reference_init get_class parent_class elem hint = inr r) :
  (issubclass (Ref.child_cls r) MaintainableArtefact = true ->
     Ref.maintainable r = true /\ Ref.cls r = Ref.child_cls r /\ Ref.id r = Ref.child_id r)
  /\
  (issubclass (Ref.child_cls r) MaintainableArtefact = false ->
     Ref.maintainable r = false /\ parent_class (Ref.child_cls r) = inr (Ref.cls r) /\
     (forall ptag pa ptext ca t ck rest g,
        elem = XElem ptag pa ptext (XElem "URN" ca (Some t) ck :: rest) ->
        Urn.match_ t = Some g -> Ref.child_id r = Urn.item_id g)).
Proof.
  destruct (reference_init_cases get_class parent_class elem hint r H)
    as [(h & cc & cid & i & v & Hf & ptag & pa & ptext & ca & ctext & ck & rest & ->)
       |(h & cc & t & g & Hf & Hg & ptag & pa & ptext & ca & ck & rest & ->)].
  - apply reference_finish_fields in Hf as [Hm Hn]. split; [exact Hm|].
    intros Hc. destruct (Hn Hc) as (H1 & H2 & _). split; [exact H1|]. split; [exact H2|].
    intros ? ? ? ? ? ? ? ? Heq. discriminate Heq.
  - apply reference_finish_fields in Hf as [Hm Hn]. split; [exact Hm|].
    intros Hc. destruct (Hn Hc) as (H1 & H2 & H3). split; [exact H1|]. split; [exact H2|].
    intros ? ? ? ? t' ? ? g' Heq Hg'. injection Heq as _ _ _ _ -> _ _.
    rewrite Hg in Hg'. injection Hg' as <-. now apply H3.
Qed.

End ReferenceClaim.

(* ================================================================== *)
(** ** C4: external-reference stubs *)

Module ResolveClaim.

Section WithGetitem.
Variable getitem : value -> option string -> exn + value.


End WithGetitem.


End ResolveClaim.

(* ================================================================== *)
(** ** C6: the role of a ContentConstraint *)

Module ReplaceFacts.

Lemma starts_with_app (p r : string) : Str.starts_with p (p ++ r) = true.
Proof. induction p as [|c p IH]; simpl; [reflexivity|]. now rewrite Ascii.eqb_refl, IH. Qed.

Lemma substring_0_full (r : string) (m : nat) :
  (String.length r <= m)%nat -> substring 0 m r = r.
Proof.
  revert m. induction r as [|c r IH]; intros m Hm; destruct m; simpl in *;
    try reflexivity; try lia.
  f_equal. apply IH. lia.
Qed.

Lemma starts_with_split (p s : string) :
  Str.starts_with p s = true ->
  exists r, s = p ++ r /\
    forall m, (String.length r <= m)%nat -> substring (String.length p) m s = r.
Proof.
  revert s. induction p as [|c p IH]; intros s H.
  - exists s. split; [reflexivity|]. intros m Hm. simpl. now apply substring_0_full.
  - destruct s as [|d s]; simpl in H; [discriminate|].
    apply andb_prop in H as [Hc H]. apply Ascii.eqb_eq in Hc. subst d.
    destruct (IH s H) as [r [-> Hr]]. exists r. split; [reflexivity|].
    intros m Hm. simpl. now apply Hr.
Qed.

Lemma length_app (a b : string) :
  String.length (a ++ b) = (String.length a + String.length b)%nat.
Proof. induction a; simpl; congruence. Qed.

Lemma occurs_start (p s : string) : Str.starts_with p s = true -> occurs p s = true.
Proof. destruct s; simpl; intros ->; reflexivity. Qed.

(** Without an occurrence of [new] in the result, nothing was replaced. *)
Lemma replace_no_new (fuel : nat) (old new s : string) :
  occurs new (Str.replace_fuel fuel old new s) = false ->
  Str.replace_fuel fuel old new s = s.
Proof.
  revert s. induction fuel as [|fuel IH]; intros s H; [reflexivity|].
  destruct s as [|c s']; [reflexivity|]. simpl in H |- *.
  destruct (Str.starts_with old (String c s')).
  - rewrite occurs_start in H by apply starts_with_app. discriminate.
  - simpl in H. apply orb_false_elim in H as [_ H]. f_equal. now apply IH.
Qed.

Lemma replace_empty (fuel : nat) (old new s : string) :
  new <> EmptyString -> Str.replace_fuel fuel old new s = EmptyString -> s = EmptyString.
Proof.
  intros Hn. destruct fuel as [|fuel]; [now simpl|].
  destruct s as [|c s']; [reflexivity|]. simpl.
  destruct (Str.starts_with old (String c s')); [|discriminate].
  destruct new; [contradiction|discriminate].
Qed.

Lemma replace_allowable (s : string) :
  Str.replace s "allowed" "allowable" = "allowable" <-> s = "allowed" \/ s = "allowable".
Proof.
  split; [|intros [-> | ->]; reflexivity].
  unfold Str.replace. intros H.
  destruct s as [|c s']; [discriminate|].
  cbn [String.length Str.replace_fuel] in H.
  destruct (Str.starts_with "allowed" (String c s')) eqn:Hst.
  - left. destruct (starts_with_split _ _ Hst) as [r [Hs Hr]].
    rewrite Hr in H.
    2:{ pose proof (f_equal String.length Hs) as L. rewrite length_app in L.
        simpl in L |- *. lia. }
    pose proof (f_equal String.length H) as L. rewrite length_app in L.
    simpl in L. destruct (Str.replace_fuel _ _ _ r) eqn:E; [|simpl in L; lia].
    apply replace_empty in E; [|discriminate]. now subst.
  - right. injection H as Hc H. subst c.
    rewrite replace_no_new in H by (rewrite H; reflexivity). now subst.
Qed.

Lemma replace_actual (s : string) :
  Str.replace s "allowed" "allowable" = "actual" <-> s = "actual".
Proof.
  split; [|intros ->; reflexivity].
  unfold Str.replace. intros H.
  rewrite replace_no_new in H by (rewrite H; reflexivity). exact H.
Qed.

End ReplaceFacts.

Module RoleClaim.
Import ReplaceFacts.

Lemma lookup_allowable (x : string) :
  ConstraintRoleType_lookup x = Some allowable <-> x = "allowable".
Proof.
  unfold ConstraintRoleType_lookup. split.
  - destruct (String.eqb_spec x "allowable"); [auto|].
    destruct (String.eqb x "actual"); discriminate.
  - intros ->. reflexivity.
Qed.

Lemma lookup_actual (x : string) :
  ConstraintRoleType_lookup x = Some actual <-> x = "actual".
Proof.
  unfold ConstraintRoleType_lookup. split.
  - destruct (String.eqb_spec x "allowable"); [discriminate|].
    destruct (String.eqb_spec x "actual"); [auto|discriminate].
  - intros ->. reflexivity.
Qed.

(** C6, as the code has it: the role is
    [ConstraintRoleType[replace(lowercase(type), "allowed", "allowable")]],
    lowercasing first. So the role is [allowable] exactly when the
    lowercased [type] is ["allowed"] or ["allowable"], [actual] exactly when
    it is ["actual"]; any other [type], or a missing one, raises [KeyError]. *)
Theorem cc_role_lower_then_replace (attrib : list (string * string)) :
  (attr_get "type" attrib = None -> _cc_role attrib = inl KeyError)
  /\
  (forall t, attr_get "type" attrib = Some t ->
     (_cc_role attrib
      = match ConstraintRoleType_lookup
                (Str.replace (Str.lower t) "allowed" "allowable") with
        | Some r => inr r | None => inl KeyError end)
     /\ (_cc_role attrib = inr allowable
         <-> Str.lower t = "allowed" \/ Str.lower t = "allowable")
     /\ (_cc_role attrib = inr actual <-> Str.lower t = "actual")
     /\ (_cc_role attrib = inl KeyError
         <-> ~ ((Str.lower t = "allowed" \/ Str.lower t = "allowable")
                \/ Str.lower t = "actual"))).
Proof.
  split.
  - intros H. unfold _cc_role. now rewrite H.
  - intros t Ht. unfold _cc_role. rewrite Ht.
    set (x := Str.replace (Str.lower t) "allowed" "allowable").
    rewrite <- replace_allowable, <- replace_actual. fold x.
    rewrite <- lookup_allowable, <- lookup_actual.
    split; [reflexivity|].
    destruct (ConstraintRoleType_lookup x) as [[|]|]; intuition congruence.
Qed.

(** C6 fails: for [type="Allowed"] (the spelling of SDMX-ML files) the code
    stores [allowable], while the claim's order — replace, then lowercase —
    gives the key ["allowed"], which is no member of [ConstraintRoleType]. *)
Lemma cc_role_counterexample :
  _cc_role [("type", "Allowed")] = inr allowable
  /\ Str.lower (Str.replace "Allowed" "allowed" "allowable") = "allowed"
  /\ ConstraintRoleType_lookup
       (Str.lower (Str.replace "Allowed" "allowed" "allowable")) = None.
Proof. vm_compute. repeat split. Qed.

End RoleClaim.

(* ================================================================== *)
(** ** C9: the items of an ItemScheme *)

Module Dedup.

Section WithKey.
Variable K : Type.
Variable K_eqb : K -> K -> bool.
Variable key_of : value -> K.
Hypothesis K_eqb_spec : forall a b, K_eqb a b = true <-> a = b.

Lemma existsb_in (k : K) (seen : list K) :
  existsb (K_eqb k) seen = true <-> In k seen.
Proof.
  rewrite existsb_exists. split.
  - intros [x [Hx Hk]]. apply K_eqb_spec in Hk. now subst.
  - intros H. exists k. split; [exact H|]. now apply K_eqb_spec.
Qed.

Lemma dedup_fresh (seen : list K) (l : list value) :
  forall y, In y (dedup_seen K K_eqb key_of seen l) -> ~ In (key_of y) seen.
Proof.
  revert seen. induction l as [|i l IH]; intros seen y Hy; simpl in Hy; [contradiction|].
  destruct (existsb (K_eqb (key_of i)) seen) eqn:E.
  - now apply IH in Hy.
  - destruct Hy as [<- | Hy].
    + intros Hin. apply (existsb_in (key_of i) seen) in Hin. congruence.
    + apply IH in Hy. intros Hin. apply Hy. now right.
Qed.

Lemma dedup_nodup (seen : list K) (l : list value) :
  NoDup (map key_of (dedup_seen K K_eqb key_of seen l)).
Proof.
  revert seen. induction l as [|i l IH]; intros seen; simpl; [constructor|].
  destruct (existsb (K_eqb (key_of i)) seen); [apply IH|].
  simpl. constructor; [|apply IH].
  intros Hin. apply in_map_iff in Hin as [y [Hk Hy]].
  apply dedup_fresh in Hy. apply Hy. rewrite Hk. now left.
Qed.

Lemma dedup_cover (seen : list K) (l : list value) :
  forall x, In x l ->
  In (key_of x) seen \/ In (key_of x) (map key_of (dedup_seen K K_eqb key_of seen l)).
Proof.
  revert seen. induction l as [|i l IH]; intros seen x Hx; [contradiction|]. simpl.
  destruct (existsb (K_eqb (key_of i)) seen) eqn:E.
  - destruct Hx as [<- | Hx]; [left; now apply existsb_in|]. now apply IH.
  - simpl. destruct Hx as [<- | Hx]; [right; now left|].
    destruct (IH (key_of i :: seen) x Hx) as [[H|H]|H].
    + right. left. exact H.
    + left. exact H.
    + right. right. exact H.
Qed.

Lemma dedup_first (seen : list K) (l : list value) :
  forall y, In y (dedup_seen K K_eqb key_of seen l) ->
  exists pre post, l = (pre ++ y :: post)%list /\ ~ In (key_of y) (map key_of pre).
Proof.
  revert seen. induction l as [|i l IH]; intros seen y Hy; simpl in Hy; [contradiction|].
  destruct (existsb (K_eqb (key_of i)) seen) eqn:E.
  - destruct (IH seen y Hy) as [pre [post [-> Hn]]].
    assert (Hi : key_of i <> key_of y).
    { intros Heq. apply dedup_fresh in Hy. apply Hy. rewrite <- Heq.
      now apply existsb_in. }
    exists (i :: pre), post. split; [reflexivity|].
    simpl. intros [H|H]; [now apply Hi|now apply Hn].
  - destruct Hy as [<- | Hy].
    + exists [], l. split; [reflexivity|]. simpl. tauto.
    + destruct (IH _ y Hy) as [pre [post [-> Hn]]].
      assert (Hi : key_of i <> key_of y).
      { intros Heq. apply dedup_fresh in Hy. apply Hy. rewrite Heq. now left. }
      exists (i :: pre), post. split; [reflexivity|].
      simpl. intros [H|H]; [now apply Hi|now apply Hn].
Qed.

Lemma dedup_subseq (seen : list K) (l : list value) :
  subseq (dedup_seen K K_eqb key_of seen l) l.
Proof.
  revert seen. induction l as [|i l IH]; intros seen; simpl; [constructor|].
  destruct (existsb (K_eqb (key_of i)) seen); constructor; apply IH.
Qed.

End WithKey.
End Dedup.

Module ItemSchemeClaim.
Import Dedup.

Lemma iter_all_in (l flat : list value) (v : value) :
  iter_all l = inr flat -> In v l -> exists xs, py_iter v = inr xs /\ incl xs flat.
Proof.
  revert flat. induction l as [|w l IH]; intros flat H Hv; [contradiction|].
  simpl in H. destruct (py_iter w) as [e|xs] eqn:Ew; [discriminate|].
  destruct (iter_all l) as [e|ys]; [discriminate|]. injection H as <-.
  destruct Hv as [<- | Hv].
  - exists xs. split; [exact Ew|]. intros x Hx. apply in_or_app. now left.
  - destruct (IH ys eq_refl Hv) as [zs [Hz Hi]]. exists zs. split; [exact Hz|].
    intros x Hx. apply in_or_app. right. now apply Hi.
Qed.

(** C9. At the end of an ItemScheme element of class [c], [_itemscheme]
    pops the [c._Item] objects and flattens them with their descendants
    into [flat]; the [items] it passes on hold every item of [flat] (up to
    the equality of the [seen] dict, [key_of]) exactly once, each one being
    the first occurrence of its key in [flat], in the order of [flat]. *)
Theorem itemscheme_items_dedup (K : Type) (K_eqb : K -> K -> bool) (key_of : value -> K)
    (Hk : forall a b, K_eqb a b = true <-> a = b)
    (c : pyclass) (d : Stack) (items : list value) (d' : Stack) :
  _itemscheme_items K K_eqb key_of c d = inr (items, d') ->
  exists popped flat,
    pop_all (QCls (_Item c)) d = inr (popped, d')
    /\ iter_all popped = inr flat
    /\ (forall o o', In (VObj o) popped -> In o' (iter_item o) -> In (VObj o') flat)
    /\ NoDup (map key_of items)
    /\ (forall x, In x flat -> In (key_of x) (map key_of items))
    /\ (forall y, In y items ->
          exists pre post, flat = (pre ++ y :: post)%list /\ ~ In (key_of y) (map key_of pre))
    /\ subseq items flat.
Proof.
  unfold _itemscheme_items. intros H.
  destruct (pop_all (QCls (_Item c)) d) as [e|[popped d1]]; [discriminate|].
  destruct (iter_all popped) as [e|flat] eqn:Ef; [discriminate|].
  injection H as <- <-.
  exists popped, flat. split; [reflexivity|]. split; [exact Ef|].
  split; [|split; [|split; [|split]]].
  - intros o o' Ho Ho'. destruct (iter_all_in _ _ _ Ef Ho) as [xs [Hx Hi]].
    simpl in Hx. destruct (issubclass (ocls o) Item); [|discriminate].
    injection Hx as <-. apply Hi. apply in_map. exact Ho'.
  - apply (dedup_nodup K K_eqb key_of Hk).
  - intros x Hx. destruct (dedup_cover K K_eqb key_of Hk [] flat x Hx) as [[]|H]. exact H.
  - apply (dedup_first K K_eqb key_of Hk).
  - apply dedup_subseq.
Qed.

End ItemSchemeClaim.

(* ================================================================== *)
(** ** The claims' theorems at concrete inputs *)

Module Witnesses.
Import DriverFacts.

Lemma read_message_uncollected_witness :
  run string (fun t => t) demo_PARSE (init_reader None) demo_events = inr demo_rd
  /\ read_message string (fun t => t) demo_PARSE demo_events None = inr (Some (VObj demo_msg)).
Proof.
  assert (Hrun : run string (fun t => t) demo_PARSE (init_reader None) demo_events
                 = inr demo_rd) by (vm_compute; reflexivity).
  split; [exact Hrun|].
  apply (Driver.read_message_uncollected string (fun t => t) demo_PARSE demo_events None
           demo_rd Hrun); vm_compute; [reflexivity | lia].
Defined.

(** C2: an element no handler knows. *)
Lemma unknown_pair_fatal_witness :
  demo_PARSE "{foo}Bar" EvStart = None
  /\ read_message string (fun t => t) demo_PARSE [(EvStart, "{foo}Bar")] None
     = inl (XMLParseError (NotImplementedError "{foo}Bar" EvStart)).
Proof.
  split; [reflexivity|].
  exact (proj1 (Driver.unknown_pair_fatal string (fun t => t) demo_PARSE)
           None [] EvStart "{foo}Bar" [] (init_reader None) eq_refl eq_refl).
Defined.

Lemma reference_fields_witness :
  Reference_init demo_get_class demo_parent_class demo_ref_elem None = inr demo_ref
  /\ Ref.maintainable demo_ref = false
  /\ demo_parent_class (Ref.child_cls demo_ref) = inr (Ref.cls demo_ref)
  /\ Ref.child_id demo_ref = Some "A".
Proof.
  assert (H : Reference_init demo_get_class demo_parent_class demo_ref_elem None
              = inr demo_ref) by (vm_compute; reflexivity).
  destruct (ReferenceClaim.reference_fields demo_get_class demo_parent_class
              demo_ref_elem None demo_ref H) as [_ H2].
  destruct (H2 eq_refl) as (Hm & Hp & Hc).
  split; [exact H|]. split; [exact Hm|]. split; [exact Hp|].
  exact (Hc "{str}Enumeration" [] None [] demo_urn [] []
            {| Urn.package := Some "codelist"; Urn.class := Some "Code";
               Urn.agency := Some "ECB"; Urn.id := Some "CL_FREQ";
               Urn.version := Some "1.0"; Urn.item_id := Some "A" |}
            eq_refl (ltac:(vm_compute; reflexivity))).
Defined.



(** C6: [type="Actual"]. *)
Lemma cc_role_witness : _cc_role [("type", "Actual")] = inr actual.
Proof.
  destruct (RoleClaim.cc_role_lower_then_replace [("type", "Actual")]) as [_ H].
  destruct (H "Actual" eq_refl) as (_ & _ & Hact & _).
  apply Hact. reflexivity.
Defined.

Lemma pop_all_buckets_witness :
  pop_all (QStr "Name") demo_stack = inr ([VStr "x"], [(KCls Code, [VObj demo_code])])
  /\ pop_all (QCls Item) demo_stack = inr ([VObj demo_code], [(KStr "Name", [VStr "x"])]).
Proof.
  assert (Hwf : wf demo_stack).
  { unfold wf. simpl. constructor; [simpl; intros [H|[]]; discriminate|].
    constructor; [simpl; tauto|constructor]. }
  destruct (PopAll.pop_all_buckets demo_stack Hwf) as [Hs Hc].
  split.
  - destruct (Hs "Name") as [H _]. rewrite H. vm_compute. reflexivity.
  - destruct (Hc Item) as [H _]. rewrite H. vm_compute. reflexivity.
Defined.


Lemma itemscheme_items_dedup_witness :
  _itemscheme_items nat Nat.eqb ident_key Codelist
    [(KCls Code, [VObj demo_parent; VObj demo_child])]
  = inr ([VObj demo_parent; VObj demo_child], [])
  /\ NoDup (map ident_key [VObj demo_parent; VObj demo_child]).
Proof.
  assert (H : _itemscheme_items nat Nat.eqb ident_key Codelist
                [(KCls Code, [VObj demo_parent; VObj demo_child])]
              = inr ([VObj demo_parent; VObj demo_child], [])) by (vm_compute; reflexivity).
  split; [exact H|].
  destruct (ItemSchemeClaim.itemscheme_items_dedup nat Nat.eqb ident_key Nat.eqb_eq
              Codelist _ _ _ H) as (popped & flat & _ & _ & _ & Hnd & _).
  exact Hnd.
Defined.

(** C10: an id that no object of the bucket has. *)
Lemma get_with_id_witness :
  get (QStr "X") (Some "b") false [(KStr "X", [VObj obj_a])] = inr None
  /\ get (QStr "X") (Some "a") false [(KStr "X", [VObj obj_a; VTuple []])]
     = inr (Some (VObj obj_a))
  /\ get (QStr "X") (Some "b") false [(KStr "X", [VObj obj_a; VTuple []])]
     = inl AttributeError.
Proof.
  destruct (GetById.get_with_id (QStr "X") false [(KStr "X", [VObj obj_a])])
    as [H1 _].
  destruct (GetById.get_with_id (QStr "X") false [(KStr "X", [VObj obj_a; VTuple []])])
    as [H2 _].
  split; [|split].
  - apply (proj2 (proj1 (proj2 (H1 "b" ltac:(discriminate))))).
    constructor; [|constructor].
    exists (Some "a"). split; [reflexivity|]. intros H. discriminate H.
  - apply (proj1 (H2 "a" ltac:(discriminate)) (VObj obj_a)).
    exists [], [VTuple []]. split; [reflexivity|]. split; [reflexivity|constructor].
  - apply (proj1 (proj2 (proj2 (H2 "b" ltac:(discriminate)))) [VObj obj_a] (VTuple []) []).
    + reflexivity.
    + constructor; [|constructor].
      exists (Some "a"). split; [reflexivity|]. intros H. discriminate H.
    + exists AttributeError. reflexivity.
Defined.

End Witnesses.

(* ================================================================== *)
(** ** Further properties of the reader *)

(** *** [to_snake] *)

Module Snake.

Lemma lower_char_not_upper (c : ascii) : is_upper (Str.lower_char c) = false.
Proof. destruct c as [[] [] [] [] [] [] [] []]; reflexivity. Qed.

Lemma lower_char_idem (c : ascii) : Str.lower_char (Str.lower_char c) = Str.lower_char c.
Proof. destruct c as [[] [] [] [] [] [] [] []]; reflexivity. Qed.

Lemma lower_char_fixed_b (c : ascii) :
  negb (Ascii.eqb (Str.lower_char c) c) || negb (is_upper c) = true.
Proof. destruct c as [[] [] [] [] [] [] [] []]; reflexivity. Qed.

Lemma lower_char_fixed (c : ascii) : Str.lower_char c = c -> is_upper c = false.
Proof.
  intros H. pose proof (lower_char_fixed_b c) as Hb.
  rewrite H, Ascii.eqb_refl in Hb. simpl in Hb. now apply negb_true_iff.
Qed.

Lemma lower_char_underscore (c : ascii) :
  Ascii.eqb (Str.lower_char c) "_" = Ascii.eqb c "_".
Proof. destruct c as [[] [] [] [] [] [] [] []]; reflexivity. Qed.

Lemma upper_not_underscore (c : ascii) : is_upper c = true -> Ascii.eqb c "_" = false.
Proof. destruct c as [[] [] [] [] [] [] [] []]; first [reflexivity | discriminate]. Qed.

Lemma lower_no_upper (s : string) : no_upper (Str.lower s) = true.
Proof.
  unfold no_upper in *.
  induction s as [|c s IH]; cbn [Str.lower Str.all_chars]; [reflexivity|].
  now rewrite lower_char_not_upper, IH.
Qed.

Lemma lower_idem (s : string) : Str.lower (Str.lower s) = Str.lower s.
Proof.
  induction s as [|c s IH]; cbn [Str.lower]; [reflexivity|].
  now rewrite lower_char_idem, IH.
Qed.

Lemma lower_fixed_no_upper (s : string) : Str.lower s = s -> no_upper s = true.
Proof.
  unfold no_upper.
  induction s as [|c s IH]; cbn [Str.lower Str.all_chars]; [reflexivity|].
  intros H. injection H as Hc Hs.
  now rewrite (lower_char_fixed c Hc), IH.
Qed.

Lemma snake_sub_id (b : bool) (s : string) : no_upper s = true -> snake_sub b s = s.
Proof.
  unfold no_upper.
  revert b. induction s as [|c s IH]; intros b; cbn [snake_sub Str.all_chars]; [reflexivity|].
  intros H. apply andb_prop in H as [Hc H]. apply negb_true_iff in Hc.
  rewrite Hc. now rewrite IH.
Qed.

Lemma strip_snake_sub (b : bool) (s : string) :
  strip_char "_" (snake_sub b s) = strip_char "_" s.
Proof.
  revert b. induction s as [|c s IH]; intros b; simpl; [reflexivity|].
  destruct (is_upper c) eqn:U.
  - rewrite (upper_not_underscore c U).
    destruct b; simpl; rewrite (upper_not_underscore c U); now rewrite IH.
  - simpl. now rewrite IH.
Qed.

Lemma strip_lower (s : string) :
  strip_char "_" (Str.lower s) = Str.lower (strip_char "_" s).
Proof.
  induction s as [|c s IH]; simpl; [reflexivity|].
  rewrite lower_char_underscore. destruct (Ascii.eqb c "_"); simpl; now rewrite IH.
Qed.

(** [to_snake] returns text that lowercasing leaves unchanged; it returns
    unchanged any text that lowercasing leaves unchanged; and so applying it
    twice is applying it once. *)
Theorem to_snake_normal_form :
  (forall s, Str.lower (to_snake s) = to_snake s)
  /\ (forall s, Str.lower s = s -> to_snake s = s)
  /\ (forall s, to_snake (to_snake s) = to_snake s).
Proof.
  assert (H1 : forall s, Str.lower (to_snake s) = to_snake s)
    by (intros s; unfold to_snake; apply lower_idem).
  assert (H2 : forall s, Str.lower s = s -> to_snake s = s).
  { intros s H. unfold to_snake.
    rewrite snake_sub_id by (now apply lower_fixed_no_upper). exact H. }
  split; [exact H1|]. split; [exact H2|].
  intros s. apply H2, H1.
Qed.

(** [to_snake] only inserts underscores and lowercases: with every ['_']
    removed, its result is the lowercased input with every ['_'] removed. *)
Theorem to_snake_strip_underscores (s : string) :
  strip_char "_" (to_snake s) = Str.lower (strip_char "_" s).
Proof. unfold to_snake. now rewrite strip_lower, strip_snake_sub. Qed.

End Snake.

(** *** [setdefault_attrib] and the artefact builders *)

Module Kw.

Section WithV.
Variable V : Type.
Variable of_attr : string -> V.

Lemma kw_get_set (k k' : string) (v : V) (kw : kwargs V) :
  kw_get V k (kw_set V k' v kw) = if String.eqb k k' then Some v else kw_get V k kw.
Proof.
  induction kw as [|[k0 w] kw IH]; simpl; [now destruct (String.eqb k k')|].
  destruct (String.eqb k' k0) eqn:E1.
  - apply String.eqb_eq in E1. subst k0. simpl. now destruct (String.eqb k k').
  - simpl. destruct (String.eqb k k0) eqn:E2; [|exact IH].
    destruct (String.eqb k k') eqn:E3; [|reflexivity].
    apply String.eqb_eq in E2, E3. subst. now rewrite String.eqb_refl in E1.
Qed.

Lemma kw_get_setdefault (k k' : string) (v : V) (kw : kwargs V) :
  kw_get V k (kw_setdefault V k' v kw)
  = if String.eqb k k' then match kw_get V k kw with Some w => Some w | None => Some v end
    else kw_get V k kw.
Proof.
  unfold kw_setdefault. destruct (kw_get V k' kw) as [w|] eqn:E.
  - destruct (String.eqb k k') eqn:E2; [|reflexivity].
    apply String.eqb_eq in E2. subst. now rewrite E.
  - rewrite kw_get_set. destruct (String.eqb k k') eqn:E2; [|reflexivity].
    apply String.eqb_eq in E2. subst. now rewrite E.
Qed.

Lemma setdefault_attrib_get (target : kwargs V) (attrib : list (string * string))
      (names : list string) (k : string) :
  kw_get V k (setdefault_attrib V of_attr target (Some attrib) names)
  = match kw_get V k target with
    | Some v => Some v
    | None =>
        match find (fun n => String.eqb (to_snake n) k
                             && match attr_get n attrib with Some _ => true | None => false end)
                   names with
        | Some n => option_map of_attr (attr_get n attrib)
        | None => None
        end
    end.
Proof.
  unfold setdefault_attrib. revert target.
  induction names as [|n names IH]; intros target; simpl.
  - now destruct (kw_get V k target).
  - rewrite IH. destruct (attr_get n attrib) as [a|] eqn:Ea.
    + rewrite kw_get_setdefault. rewrite (String.eqb_sym (to_snake n) k). simpl.
      rewrite andb_true_r.
      destruct (String.eqb k (to_snake n)); simpl.
      * destruct (kw_get V k target); simpl; [reflexivity|now rewrite Ea].
      * reflexivity.
    + rewrite andb_false_r. reflexivity.
Qed.

Lemma setdefault_attrib_app (target : kwargs V) (attrib : list (string * string))
      (n1 n2 : list string) :
  setdefault_attrib V of_attr (setdefault_attrib V of_attr target (Some attrib) n1) (Some attrib) n2
  = setdefault_attrib V of_attr target (Some attrib) (n1 ++ n2)%list.
Proof. unfold setdefault_attrib. now rewrite fold_left_app. Qed.

End WithV.
End Kw.

(** *** Stack invariants kept by removals *)

Module StackMore.
Import StackFacts.

Lemma in_fst_filter (p : key * list value -> bool) (k : key) (d : Stack) :
  In k (map fst (filter p d)) -> In k (map fst d).
Proof.
  induction d as [|kv d IH]; simpl; [auto|].
  destruct (p kv); simpl; intuition.
Qed.

Lemma wf_filter (p : key * list value -> bool) (d : Stack) : wf d -> wf (filter p d).
Proof.
  unfold wf. induction d as [|[k vs] d IH]; simpl; intros H; [constructor|].
  inversion H; subst. destruct (p (k, vs)); simpl; [constructor|]; auto.
  intros Hin. apply in_fst_filter in Hin. contradiction.
Qed.

Lemma dict_remove_filter (k : key) (d : Stack) :
  dict_remove k d = filter (fun kv => negb (key_eqb k (fst kv))) d.
Proof.
  induction d as [|[k' vs] d IH]; simpl; [reflexivity|].
  destruct (key_eqb k k'); simpl; now rewrite IH.
Qed.

Lemma wf_remove (k : key) (d : Stack) : wf d -> wf (dict_remove k d).
Proof. rewrite dict_remove_filter. apply wf_filter. Qed.

Lemma pop_all_cls (c : pyclass) (d : Stack) :
  wf d ->
  pop_all (QCls c) d
  = inr (get_results (QCls c) false d,
         filter (fun kv => negb (matching_class c (fst kv))) d).
Proof.
  intros Hwf. unfold pop_all.
  pose proof (pop_keys_spec c d [] Hwf) as H. simpl in H. rewrite H.
  simpl. now rewrite concat_select.
Qed.

Lemma bucket_filter_cls (c : pyclass) (k : key) (d : Stack) :
  bucket k (filter (fun kv => negb (matching_class c (fst kv))) d)
  = if matching_class c k then [] else bucket k d.
Proof.
  unfold bucket. rewrite (dict_get_filter (fun k => negb (matching_class c k))).
  now destruct (matching_class c k).
Qed.

Lemma wf_extend (k : key) (vs : list value) (d : Stack) : wf d -> wf (extend_to k vs d).
Proof.
  unfold wf. intros H.
  induction d as [|[k0 ws] d IH]; simpl; [repeat constructor; auto|].
  inversion H; subst. destruct (key_eqb k k0) eqn:E; simpl; constructor; auto.
  intros Hin2.
  assert (Hin : forall k', In k' (map fst (extend_to k vs d)) -> k' = k \/ In k' (map fst d)).
  { clear - d. induction d as [|[k1 us] d IH]; simpl; [intuition|].
    destruct (key_eqb k k1) eqn:E1; simpl.
    - apply key_eqb_iff in E1; subst. intuition.
    - intros k' [->|Hk]; [auto|]. destruct (IH k' Hk); auto. }
  destruct (Hin k0 Hin2) as [->|Hk]; [|contradiction].
  now rewrite key_eqb_refl in E.
Qed.

End StackMore.

(** *** [maintainable]: keyword arguments and stack *)

Module ArtefactFacts.
Import StackFacts StackMore.

(** [maintainable(cls, elem, **kwargs)]: with [elem] [None] the keyword
    arguments pass unchanged and the stack is not touched. With an element,
    a keyword argument the caller gives is never replaced by an attribute;
    a missing one is filled from the attributes [isExternalReference],
    [isFinal], [uri], [urn], [version] and [id] under their snake-case
    names; [annotations] is the caller's list extended by every value of
    the [Annotation] buckets; the [Name] and [Description] buckets are
    returned for [add_localizations]; and exactly those buckets leave the
    stack. *)
Theorem maintainable_effect (V : Type) (of_attr : string -> V) (of_list : list value -> V)
    (as_list : V -> option (list value))
    (Hnil : as_list (of_list []) = Some [])
    (attrib : list (string * string)) (kw : kwargs V) (d : Stack) (l0 : list value)
    (Hwf : wf d)
    (Hprior : match kw_get V "annotations" kw with
              | None => l0 = []
              | Some x => as_list x = Some l0
              end) :
  maintainable V of_attr of_list as_list None kw d = inr (kw, [], [], d)
  /\ exists kw' d',
    maintainable V of_attr of_list as_list (Some attrib) kw d
      = inr (kw', bucket (KStr "Name") d, bucket (KStr "Description") d, d')
    /\ (forall k,
          kw_get V k kw'
          = if String.eqb k "annotations"
            then Some (of_list (l0 ++ get_results (QCls Annotation) false d)%list)
            else match kw_get V k kw with
                 | Some v => Some v
                 | None =>
                     match find (fun n => String.eqb (to_snake n) k
                                          && match attr_get n attrib with
                                             | Some _ => true | None => false end)
                                ["isExternalReference"; "isFinal"; "uri"; "urn"; "version"; "id"]
                     with
                     | Some n => option_map of_attr (attr_get n attrib)
                     | None => None
                     end
                 end)
    /\ wf d'
    /\ (forall k,
          bucket k d'
          = if matching_class Annotation k || key_eqb k (KStr "Name")
               || key_eqb k (KStr "Description")
            then [] else bucket k d).
Proof.
  split; [reflexivity|].
  unfold maintainable, versionable, nameable, identifiable.
  rewrite !Kw.setdefault_attrib_app. cbn [app].
  remember (setdefault_attrib V of_attr kw (Some attrib)
              ["isExternalReference"; "isFinal"; "uri"; "urn"; "version"; "id"]) as kwS eqn:EkwS.
  assert (HS : forall k, kw_get V k kwS
    = match kw_get V k kw with
      | Some v => Some v
      | None =>
          match find (fun n => String.eqb (to_snake n) k
                               && match attr_get n attrib with
                                  | Some _ => true | None => false end)
                     ["isExternalReference"; "isFinal"; "uri"; "urn"; "version"; "id"]
          with
          | Some n => option_map of_attr (attr_get n attrib)
          | None => None
          end
      end) by (intros k; subst kwS; apply Kw.setdefault_attrib_get).
  assert (HSa : kw_get V "annotations" kwS = kw_get V "annotations" kw)
    by (rewrite HS; destruct (kw_get V "annotations" kw); reflexivity).
  assert (Hx : exists x, kw_get V "annotations" (kw_setdefault V "annotations" (of_list []) kwS)
                         = Some x /\ as_list x = Some l0).
  { rewrite Kw.kw_get_setdefault, String.eqb_refl, HSa.
    destruct (kw_get V "annotations" kw) as [x|]; [now exists x|].
    subst l0. now exists (of_list []). }
  destruct Hx as [x [Ex Ax]].
  unfold annotable. cbv zeta. rewrite Ex, Ax, (pop_all_cls Annotation d Hwf).
  cbn [pop_all].
  rewrite Stash.bucket_remove, !bucket_filter_cls.
  eexists _, _. split; [reflexivity|]. split; [|split].
  - intros k. rewrite Kw.kw_get_set.
    destruct (String.eqb k "annotations") eqn:Ek; [reflexivity|].
    rewrite Kw.kw_get_setdefault, Ek. apply HS.
  - apply wf_remove, wf_remove, wf_filter, Hwf.
  - intros k. rewrite !Stash.bucket_remove, bucket_filter_cls.
    destruct (matching_class Annotation k), (key_eqb k (KStr "Name")),
      (key_eqb k (KStr "Description")); reflexivity.
Qed.

End ArtefactFacts.

(** *** [_clean] *)

Module CleanFacts.
Import StackFacts StackMore.

(** [Reader._clean()] on a dict with no key twice keeps it a dict with no
    key twice, leaves no empty bucket, changes no bucket's contents (a
    missing bucket and an empty one read the same through the
    defaultdict), and so does not change the count [read_message] checks
    for uncollected objects. *)
Theorem clean_keeps_contents (rd : Reader) (Hwf : wf (stack rd)) :
  wf (_clean (stack rd))
  /\ Forall (fun kv => snd kv <> []) (_clean (stack rd))
  /\ (forall k, bucket k (_clean (stack rd)) = bucket k (stack rd))
  /\ non_ignored (set_stack rd (_clean (stack rd))) = non_ignored rd.
Proof.
  split; [apply wf_filter, Hwf|]. split; [|split].
  - apply Forall_forall. intros [k vs] Hin. apply filter_In in Hin as [_ Hl].
    simpl in *. intros ->. discriminate.
  - intros k. unfold bucket, _clean. revert Hwf. unfold wf.
    induction (stack rd) as [|[k0 vs] d IH]; simpl; intros Hnd; [reflexivity|].
    inversion Hnd as [|? ? Hk0 Hnd']; subst.
    destruct (Nat.eqb (length vs) 0) eqn:El; simpl.
    + apply Nat.eqb_eq, length_zero_iff_nil in El. subst vs.
      rewrite IH by exact Hnd'.
      destruct (key_eqb k k0) eqn:E; [|reflexivity].
      apply key_eqb_iff in E. subst k0. now rewrite dict_get_notin.
    + destruct (key_eqb k k0); [reflexivity|]. now apply IH.
  - unfold non_ignored, _clean. simpl. clear Hwf.
    induction (stack rd) as [|[k0 vs] d IH]; simpl; [reflexivity|].
    destruct (Nat.eqb (length vs) 0) eqn:El; simpl; rewrite IH; [|reflexivity].
    apply Nat.eqb_eq, length_zero_iff_nil in El. now subst vs.
Qed.

End CleanFacts.

(** *** [pop_single] and [pop_resolved_ref] *)

Module PopSingleFacts.
Import StackFacts.

Lemma pop_last_append (k : key) (v : value) (d : Stack) :
  exists d', pop_last k (append_to k v d) = Some (v, d')
             /\ forall k', bucket k' d' = bucket k' d.
Proof.
  assert (Hb : bucket k (append_to k v d) = (bucket k d ++ [v])%list).
  { unfold append_to. now rewrite Stash.bucket_extend, key_eqb_refl. }
  unfold pop_last at 1. rewrite Hb, rev_app_distr. simpl.
  eexists. split; [reflexivity|].
  match goal with |- forall k', bucket k' ?D = _ =>
    assert (Hp : pop_last k (append_to k v d) = Some (v, D)) end.
  { unfold pop_last. now rewrite Hb, rev_app_distr. }
  destruct (Stash.pop_last_bucket _ _ _ _ Hp) as [Hk Ho].
  intros k'. destruct (key_eqb k' k) eqn:E.
  - apply key_eqb_iff in E. subst k'. rewrite Hb in Hk.
    symmetry. now apply app_inj_tail in Hk as [? _].
  - rewrite Ho by (intros ->; now rewrite key_eqb_refl in E).
    unfold append_to. rewrite Stash.bucket_extend, E. reflexivity.
Qed.

Lemma pop_single_append (k : key) (v : value) (d : Stack) :
  fst (pop_single k (append_to k v d)) = v
  /\ forall k', bucket k' (snd (pop_single k (append_to k v d))) = bucket k' d.
Proof.
  destruct (pop_last_append k v d) as [d' [Hp Hb]].
  unfold pop_single. rewrite Hp. split; [reflexivity|exact Hb].
Qed.

Lemma pop_single_empty_bucket (k : key) (d : Stack) :
  bucket k d = [] -> pop_single k d = (VNone, touch k d).
Proof.
  intros Hk. unfold pop_single, pop_last. now rewrite Hk.
Qed.

(** [pop_single(k)] after [push(k, v)] returns [v] and gives back every
    bucket as it was before the push (last in, first out); on an empty or
    missing bucket it returns [None] and changes no bucket's contents. *)
Theorem pop_single_lifo (k : key) (d : Stack) :
  (forall v,
     fst (pop_single k (push_key k v d)) = v
     /\ forall k', bucket k' (snd (pop_single k (push_key k v d))) = bucket k' d)
  /\ (bucket k d = [] ->
      fst (pop_single k d) = VNone
      /\ forall k', bucket k' (snd (pop_single k d)) = bucket k' d).
Proof.
  split.
  - intros v. apply pop_single_append.
  - intros Hk. rewrite (pop_single_empty_bucket k d Hk). split; [reflexivity|].
    intros k'. apply Stash.bucket_touch.
Qed.

Lemma resolve_not_ref (getitem : value -> option string -> exn + value) (c : pyclass)
      (v : value) (rd : Reader) :
  (forall r, v <> VRef r) -> resolve getitem c v rd = inr (v, rd).
Proof. intros Hv. destruct v; try reflexivity. exfalso. eapply Hv. reflexivity. Qed.

(** [pop_resolved_ref(cls, cls_or_name)] right after [push(cls_or_name, v)]
    of a value that is not a [Reference] returns [v] itself and gives back
    the stack's buckets as they were; on an empty or missing bucket it
    returns [None]; a falsy [cls_or_name] (the empty string, or none given)
    pops from the bucket of [cls]. *)
Theorem pop_resolved_ref_plain (getitem : value -> option string -> exn + value)
    (c : pyclass) (k : key) (rd : Reader) :
  (forall v, (forall r, v <> VRef r) -> key_truthy k = true ->
     exists d', pop_resolved_ref getitem c (Some k) (set_stack rd (push_key k v (stack rd)))
                = inr (v, set_stack rd d')
                /\ forall k', bucket k' d' = bucket k' (stack rd))
  /\ (key_truthy k = true -> bucket k (stack rd) = [] ->
      pop_resolved_ref getitem c (Some k) rd = inr (VNone, set_stack rd (touch k (stack rd))))
  /\ pop_resolved_ref getitem c (Some (KStr "")) rd = pop_resolved_ref getitem c None rd.
Proof.
  split; [|split].
  - intros v Hv Hk. unfold pop_resolved_ref, push_key. rewrite Hk. cbn [stack set_stack].
    destruct (pop_single_append k v (stack rd)) as [H1 H2].
    destruct (pop_single k (append_to k v (stack rd))) as [v' d'] eqn:E.
    simpl in H1, H2. subst v'. exists d'. split; [|exact H2].
    rewrite resolve_not_ref by exact Hv. reflexivity.
  - intros Hk Hb. unfold pop_resolved_ref. rewrite Hk, (pop_single_empty_bucket k _ Hb).
    reflexivity.
  - reflexivity.
Qed.

End PopSingleFacts.

(** *** [push] then [get] by id *)

Module GetPush.
Import StackFacts.

Lemma scan_id_app (s : string) (l1 l2 : list value) :
  scan_id s (l1 ++ l2)%list
  = match scan_id s l1 with inr None => scan_id s l2 | r => r end.
Proof.
  induction l1 as [|w l1 IH]; simpl; [reflexivity|].
  destruct (attr_id w) as [e|i]; [reflexivity|].
  destruct (opt_str_eqb i (Some s)); [reflexivity|exact IH].
Qed.

Lemma scan_id_self (s : string) (o : obj) (l : list value) :
  oid o = IdStr s -> scan_id s (VObj o :: l) = inr (Some (VObj o)).
Proof. intros H. simpl. rewrite H. simpl. now rewrite String.eqb_refl. Qed.

Lemma get_results_append (c : pyclass) (k : key) (v : value) (d : Stack) :
  matching_class c k = true ->
  exists pre post,
    get_results (QCls c) false d = (pre ++ post)%list
    /\ get_results (QCls c) false (append_to k v d) = (pre ++ v :: post)%list.
Proof.
  intros Hk. unfold append_to. simpl.
  induction d as [|[k0 ws] d IH]; simpl.
  - rewrite Hk. exists [], []. split; reflexivity.
  - destruct (key_eqb k k0) eqn:E; simpl.
    + apply key_eqb_iff in E. subst k0. rewrite Hk. simpl.
      exists ws, (concat (map snd (filter (fun kv => matching_class c (fst kv)) d))).
      split; [reflexivity|]. now rewrite <- app_assoc.
    + destruct IH as (pre & post & H1 & H2).
      destruct (matching_class c k0); simpl; [|exists pre, post; now split].
      exists (ws ++ pre)%list, post. rewrite H1, H2, !app_assoc. now split.
Qed.

Lemma get_push_fresh (o : obj) (s : string) (d : Stack) (c : pyclass) :
  s <> "" -> oid o = IdStr s -> issubclass (ocls o) c = true ->
  get (QCls c) (Some s) false d = inr None ->
  get (QCls c) (Some s) false (push (VObj o) d) = inr (Some (VObj o)).
Proof.
  intros Hs Hid Hc. rewrite !GetById.get_nonempty by exact Hs.
  destruct (get_results_append c (KCls (ocls o)) (VObj o) d Hc) as (pre & post & H1 & H2).
  unfold push. simpl class_of. rewrite H1, H2, !scan_id_app.
  destruct (scan_id s pre) as [e|[w|]]; try discriminate.
  intros _. now apply scan_id_self.
Qed.

Lemma get_results_append_other (c : pyclass) (k : key) (v : value) (d : Stack) :
  matching_class c k = false ->
  get_results (QCls c) false (append_to k v d) = get_results (QCls c) false d.
Proof.
  intros Hk. unfold append_to. simpl.
  induction d as [|[k0 ws] d IH]; simpl; [now rewrite Hk|].
  destruct (key_eqb k k0) eqn:E; simpl.
  - apply key_eqb_iff in E. subst k0. now rewrite Hk.
  - destruct (matching_class c k0); simpl; now rewrite IH.
Qed.

(** [get(cls, id)] right after [push(obj)] of an object whose [id] is the
    non-empty [id]: looking in the object's own bucket ([strict=True]) it
    returns the first earlier object of that bucket with this [id], else
    the pushed object (and raises if an earlier one has no [id]); looking
    through the buckets of all subclasses of a base class of the object, it
    returns the pushed object whenever the same [get] found nothing before
    the push. *)
Theorem get_after_push (o : obj) (s : string) (d : Stack)
    (Hs : s <> "") (Hid : oid o = IdStr s) :
  get (QCls (ocls o)) (Some s) true (push (VObj o) d)
  = match scan_id s (bucket (KCls (ocls o)) d) with
    | inr None => inr (Some (VObj o))
    | r => r
    end
  /\ (forall c, issubclass (ocls o) c = true ->
        get (QCls c) (Some s) false d = inr None ->
        get (QCls c) (Some s) false (push (VObj o) d) = inr (Some (VObj o))).
Proof.
  split.
  - rewrite GetById.get_nonempty by exact Hs. simpl get_results.
    unfold push, append_to. simpl class_of.
    rewrite Stash.bucket_extend, key_eqb_refl, scan_id_app.
    destruct (scan_id s (bucket (KCls (ocls o)) d)) as [e|[w|]]; try reflexivity.
    simpl. rewrite Hid. simpl. now rewrite String.eqb_refl.
  - intros c Hc. now apply get_push_fresh.
Qed.

End GetPush.

(** *** [resolve] of an item reference whose scheme is missing *)

Module ResolveMore.
Import StackFacts.

Lemma issubclass_refl (c : pyclass) : issubclass c c = true.
Proof. destruct c; reflexivity. Qed.

(** For a non-maintainable [Reference] (an item of a scheme) with a
    non-empty [child_id] and a non-empty [ref.id], whose scheme class
    [ref.cls] is not a subclass of [ref.child_cls], when no object of the
    [child_cls] buckets has that [child_id] and [get] of the scheme by its
    id finds nothing, [resolve(cls, ref)] (its assertion holding) pushes
    one external stub of the scheme and returns [None]; resolving the same
    reference again finds that stub, returns [None] and pushes nothing, so
    repeated references to a missing scheme create a single stub. *)
Theorem resolve_missing_scheme_once (getitem : value -> option string -> exn + value)
    (c : pyclass) (r : Ref.Reference) (rd : Reader) (s t : string)
    (Hm : Ref.maintainable r = false)
    (Ha : (issubclass (Ref.cls r) c || issubclass (Ref.child_cls r) c) = true)
    (Hcid : Ref.child_id r = Some s) (Hs : s <> "")
    (Hpid : Ref.id r = Some t) (Ht : t <> "")
    (Hsub : issubclass (Ref.cls r) (Ref.child_cls r) = false)
    (Hitem : Forall (id_differs s) (get_results (QCls (Ref.child_cls r)) false (stack rd)))
    (Hscheme : get (QCls (Ref.cls r)) (Some t) false (stack rd) = inr None) :
  exists rd',
    resolve getitem c (VRef r) rd = inr (VNone, rd')
    /\ stack rd' = push (VObj (external_stub (Ref.cls r) (Ref.id r) (next_ident rd))) (stack rd)
    /\ resolve getitem c (VRef r) rd' = inr (VNone, rd').
Proof.
  set (o := external_stub (Ref.cls r) (Ref.id r) (next_ident rd)).
  assert (Hget : forall d, get_results (QCls (Ref.child_cls r)) false d
                           = get_results (QCls (Ref.child_cls r)) false (stack rd) ->
                 get (QCls (Ref.child_cls r)) (Ref.child_id r) false d = inr None).
  { intros d Hd. rewrite Hcid, GetById.get_nonempty by exact Hs. rewrite Hd.
    now apply GetById.scan_id_none. }
  exists {| stack := push (VObj o) (stack rd); ignore := ignore rd;
            next_ident := S (next_ident rd) |}.
  split; [|split; [reflexivity|]].
  - unfold o. simpl. rewrite Ha, (Hget (stack rd) eq_refl), Hm. simpl.
    rewrite Hpid, Hscheme. reflexivity.
  - assert (Hp : get (QCls (Ref.cls r)) (Ref.id r) false (push (VObj o) (stack rd))
                 = inr (Some (VObj o))).
    { rewrite Hpid. apply GetPush.get_push_fresh; auto.
      - subst o. simpl. now rewrite Hpid.
      - apply issubclass_refl. }
    simpl. rewrite Ha, Hget, Hm; [|unfold push; apply GetPush.get_results_append_other;
                                   exact Hsub].
    simpl. unfold push in Hp. simpl in Hp. rewrite Hp. unfold o. simpl. reflexivity.
Qed.

End ResolveMore.

(** *** [unstash] edge cases *)

Module UnstashFacts.
Import StackFacts.

Lemma unstash_append (d : Stack) (v : value) :
  (forall dct, v <> VDict dct) ->
  unstash (append_to (KStr "_stash") v d)
  = match v with
    | VObj o => if issubclass (ocls o) ItemScheme then inl TypeError else inl AttributeError
    | _ => inl AttributeError
    end.
Proof.
  intros Hv. unfold unstash, pop_last. cbv zeta.
  rewrite Stash.bucket_touch. unfold append_to.
  rewrite Stash.bucket_extend, key_eqb_refl, rev_app_distr. simpl.
  destruct v; try reflexivity. exfalso. eapply Hv. reflexivity.
Qed.

(** [unstash()] with nothing stashed swallows the [IndexError] and changes
    no bucket's contents; when the newest entry of the [_stash] bucket is
    neither a dict nor a model object it raises [AttributeError] (no
    [.items]); when it is an ItemScheme it raises [TypeError] (its [items]
    is a dict, not a method). *)
Theorem unstash_edges (d : Stack) :
  (bucket (KStr "_stash") d = [] ->
     exists d', unstash d = inr d' /\ forall k, bucket k d' = bucket k d)
  /\ (forall v, (forall dct, v <> VDict dct) ->
        (forall o, v = VObj o -> issubclass (ocls o) ItemScheme = false) ->
        unstash (append_to (KStr "_stash") v d) = inl AttributeError)
  /\ (forall o, issubclass (ocls o) ItemScheme = true ->
        unstash (append_to (KStr "_stash") (VObj o) d) = inl TypeError).
Proof.
  split; [|split].
  - intros Hb. exists (touch (KStr "_stash") d). split.
    + unfold unstash, pop_last. cbv zeta. rewrite Stash.bucket_touch, Hb. reflexivity.
    + intros k. apply Stash.bucket_touch.
  - intros v Hv Ho. rewrite (unstash_append d v Hv).
    destruct v as [| o | | | |]; try reflexivity.
    now rewrite (Ho o eq_refl).
  - intros o Ho. rewrite unstash_append by discriminate. now rewrite Ho.
Qed.

End UnstashFacts.

(** *** Dict updates: [add_localizations] and the keyword arguments of [_facet] *)

Module LocFacts.

Section WithL.
Variable L : Type.

Lemma loc_get_set (k k' : string) (v : L) (d : list (string * L)) :
  loc_get L k (loc_set L k' v d) = if String.eqb k k' then Some v else loc_get L k d.
Proof.
  induction d as [|[k0 w] d IH]; simpl; [now destruct (String.eqb k k')|].
  destruct (String.eqb k' k0) eqn:E1.
  - apply String.eqb_eq in E1. subst k0. simpl. now destruct (String.eqb k k').
  - simpl. destruct (String.eqb k k0) eqn:E2; [|exact IH].
    destruct (String.eqb k k') eqn:E3; [|reflexivity].
    apply String.eqb_eq in E2, E3. subst. now rewrite String.eqb_refl in E1.
Qed.

Lemma loc_set_keys (k k' : string) (v : L) (d : list (string * L)) :
  In k (map fst (loc_set L k' v d)) <-> k = k' \/ In k (map fst d).
Proof.
  induction d as [|[k0 w] d IH]; simpl; [intuition|].
  destruct (String.eqb k' k0) eqn:E; simpl.
  - apply String.eqb_eq in E. subst. intuition.
  - rewrite IH. intuition.
Qed.

Lemma loc_set_nodup (k : string) (v : L) (d : list (string * L)) :
  NoDup (map fst d) -> NoDup (map fst (loc_set L k v d)).
Proof.
  induction d as [|[k0 w] d IH]; simpl; intros H; [repeat constructor; auto|].
  inversion H as [|? ? Hn Hd]; subst.
  destruct (String.eqb k k0) eqn:E; simpl; constructor; auto.
  rewrite loc_set_keys. intros [->|Hin]; [|contradiction].
  now rewrite String.eqb_refl in E.
Qed.

Lemma fold_loc_set_nodup (l acc : list (string * L)) :
  NoDup (map fst acc) ->
  NoDup (map fst (fold_left (fun acc kv => loc_set L (fst kv) (snd kv) acc) l acc)).
Proof.
  revert acc. induction l as [|kv l IH]; simpl; intros acc H; [exact H|].
  apply IH, loc_set_nodup, H.
Qed.

Lemma last_for_gen (k : string) (l : list (string * L)) (o : option L) :
  (fold_left (fun o kv => if String.eqb k (fst kv) then Some (snd kv) else o) l o) = match (fold_left (fun o kv => if String.eqb k (fst kv) then Some (snd kv) else o) l None) with Some v => Some v | None => o end.
Proof.
  revert o. induction l as [|[k0 v0] l IH]; intros o; simpl; [now destruct o|].
  destruct (String.eqb k k0); [|apply IH].
  rewrite (IH (Some v0)). now destruct ((fold_left (fun o kv => if String.eqb k (fst kv) then Some (snd kv) else o) l None)).
Qed.

Lemma fold_loc_get (k : string) (l acc : list (string * L)) :
  loc_get L k (fold_left (fun acc kv => loc_set L (fst kv) (snd kv) acc) l acc)
  = match (fold_left (fun o kv => if String.eqb k (fst kv) then Some (snd kv) else o) l None) with Some v => Some v | None => loc_get L k acc end.
Proof.
  revert acc. induction l as [|[k0 v0] l IH]; intros acc; simpl; [reflexivity|].
  rewrite IH, loc_get_set.
  destruct (String.eqb k k0); [|reflexivity].
  rewrite (last_for_gen k l (Some v0)). now destruct ((fold_left (fun o kv => if String.eqb k (fst kv) then Some (snd kv) else o) l None)).
Qed.

Lemma loc_get_last_for (k : string) (d : list (string * L)) :
  NoDup (map fst d) -> loc_get L k d = (fold_left (fun o kv => if String.eqb k (fst kv) then Some (snd kv) else o) d None).
Proof.
  induction d as [|[k0 v0] d IH]; simpl; intros H; [reflexivity|].
  inversion H as [|? ? Hn Hd]; subst.
  destruct (String.eqb k k0) eqn:E; [|now apply IH].
  apply String.eqb_eq in E. subst k0.
  rewrite last_for_gen, <- IH by exact Hd.
  destruct (loc_get L k d) eqn:Eg; [|reflexivity].
  exfalso. apply Hn. clear - Eg. induction d as [|[k1 w] d IH]; simpl in *; [discriminate|].
  destruct (String.eqb k k1) eqn:E1; [left; symmetry; now apply String.eqb_eq|].
  right. now apply IH.
Qed.

(** [add_localizations(target, values)]: afterwards a locale reads the
    label of the last pair of [values] for it, and a locale absent from
    [values] keeps its label in [target]; a [target] with no locale twice
    stays so. *)
Theorem add_localizations_update (target values : list (string * L)) :
  (forall k,
     loc_get L k (add_localizations L target values)
     = match fold_left (fun o kv => if String.eqb k (fst kv) then Some (snd kv) else o)
                       values None with
       | Some v => Some v
       | None => loc_get L k target
       end)
  /\ (NoDup (map fst target) -> NoDup (map fst (add_localizations L target values))).
Proof.
  unfold add_localizations. split.
  - intros k. rewrite fold_loc_get, <- loc_get_last_for.
    + rewrite fold_loc_get. simpl. now destruct ((fold_left (fun o kv => if String.eqb k (fst kv) then Some (snd kv) else o) values None)).
    + apply fold_loc_set_nodup. constructor.
  - apply fold_loc_set_nodup.
Qed.

Lemma fold_left_map_keys (f : string -> string) (l acc : list (string * L)) :
  fold_left (fun acc kv => loc_set L (f (fst kv)) (snd kv) acc) l acc
  = fold_left (fun acc kv => loc_set L (fst kv) (snd kv) acc)
              (map (fun kv => (f (fst kv), snd kv)) l) acc.
Proof.
  revert acc. induction l as [|kv l IH]; intros acc; simpl; [reflexivity|]. apply IH.
Qed.

Lemma last_for_map_keys (f : string -> string) (k : string) (l : list (string * L))
      (o : option L) :
  fold_left (fun o kv => if String.eqb k (fst kv) then Some (snd kv) else o)
            (map (fun kv => (f (fst kv), snd kv)) l) o
  = fold_left (fun o kv => if String.eqb k (f (fst kv)) then Some (snd kv) else o) l o.
Proof.
  revert o. induction l as [|kv l IH]; intros o; simpl; [reflexivity|]. apply IH.
Qed.

End WithL.

(** [_facet]: with no [textType] attribute the value type is ["string"];
    an empty [textType] raises [IndexError]; otherwise only its first
    letter is lowered. The [FacetType] keyword arguments have no key twice,
    and each snake-case key gets the value of the last attribute (other
    than [textType]) whose name has that snake-case form. *)
Theorem facet_args_spec (attrib : list (string * string)) :
  match attr_get "textType" attrib with
  | None => exists kw, _facet_args attrib = inr ("string", kw)
  | Some EmptyString => _facet_args attrib = inl IndexError
  | Some (String c s) => exists kw, _facet_args attrib = inr (String (Str.lower_char c) s, kw)
  end
  /\ (forall name kw, _facet_args attrib = inr (name, kw) ->
        NoDup (map fst kw)
        /\ forall k,
             loc_get string k kw
             = fold_left (fun o kv => if String.eqb k (to_snake (fst kv)) then Some (snd kv) else o)
                         (filter (fun kv => negb (String.eqb (fst kv) "textType")) attrib) None).
Proof.
  unfold _facet_args. cbv zeta. split.
  - destruct (attr_get "textType" attrib) as [[|c s]|]; eauto.
  - intros name kw H.
    assert (Hkw : kw = fold_left (fun acc kv => loc_set string (to_snake (fst kv)) (snd kv) acc)
                         (filter (fun kv => negb (String.eqb (fst kv) "textType")) attrib) []).
    { destruct (attr_get "textType" attrib) as [[|c s]|]; simpl in H;
        try discriminate; now injection H as _ <-. }
    subst kw. rewrite fold_left_map_keys. split.
    + apply fold_loc_set_nodup. constructor.
    + intros k. rewrite fold_loc_get, last_for_map_keys. simpl.
      match goal with |- match ?X with _ => _ end = _ => now destruct X end.
Qed.

End LocFacts.

(** *** The [start] and [end] decorators *)

Module RegistryFacts.

Section WithElem.
Variable Elem : Type.
Variable qname : string -> string.

Lemma fold_start (tags : list string) (only : bool) (func : handler Elem)
      (P : registry Elem) (t : string) (e : event) :
  fold_left (fun P tag =>
               let P1 := reg_set Elem tag EvStart (Some func) P in
               if only then reg_set Elem tag EvEnd None P1 else P1) tags P t e
  = if existsb (String.eqb t) tags
    then match e with
         | EvStart => Some (Some func)
         | EvEnd => if only then Some None else P t EvEnd
         end
    else P t e.
Proof.
  revert P. induction tags as [|tag tags IH]; intros P; simpl; [reflexivity|].
  rewrite IH. unfold reg_set. destruct only; cbv beta iota zeta;
    rewrite (String.eqb_sym tag t);
    destruct (String.eqb t tag), (existsb (String.eqb t) tags), e; reflexivity.
Qed.

Lemma fold_end (tags : list string) (only : bool) (func : handler Elem)
      (P : registry Elem) (t : string) (e : event) :
  fold_left (fun P tag =>
               let P1 := reg_set Elem tag EvEnd (Some func) P in
               if only then reg_set Elem tag EvStart None P1 else P1) tags P t e
  = if existsb (String.eqb t) tags
    then match e with
         | EvEnd => Some (Some func)
         | EvStart => if only then Some None else P t EvStart
         end
    else P t e.
Proof.
  revert P. induction tags as [|tag tags IH]; intros P; simpl; [reflexivity|].
  rewrite IH. unfold reg_set. destruct only; cbv beta iota zeta;
    rewrite (String.eqb_sym tag t);
    destruct (String.eqb t tag), (existsb (String.eqb t) tags), e; reflexivity.
Qed.

End WithElem.

(** The decorators [start] and [end], with arguments [args] and [only],
    applied to a handler: for every tag [to_tags] gives, the handler is registered for
    its own event, and the other event becomes an explicit no-op when
    [only] is true and keeps its entry otherwise; every other (tag, event)
    pair keeps its entry. *)
Theorem start_end_entries (Elem : Type) (qname : string -> string) (args : list string)
    (only : bool) (func : handler Elem) (P : registry Elem) (t : string) (e : event) :
  start_ Elem qname args only func P t e
  = (if existsb (String.eqb t) (to_tags qname args)
     then match e with
          | EvStart => Some (Some func)
          | EvEnd => if only then Some None else P t EvEnd
          end
     else P t e)
  /\ end_ Elem qname args only func P t e
  = (if existsb (String.eqb t) (to_tags qname args)
     then match e with
          | EvEnd => Some (Some func)
          | EvStart => if only then Some None else P t EvStart
          end
     else P t e).
Proof. split; [apply fold_start | apply fold_end]. Qed.

End RegistryFacts.

(** *** [sdmx.urn.match] *)

Module UrnMore.
Import Urn UrnFacts.

Lemma m_lits_prefix (p : string) (c : ascii) (r : regex) (s : string) e k :
  m (lits p (Seq (Lit c) r)) s e k <> None -> exists rest, s = (p ++ String c rest)%string.
Proof.
  revert s. induction p as [|c0 p IH]; intros s; simpl.
  - destruct s as [|d s]; [tauto|].
    destruct (Ascii.eqb c d) eqn:E; [|tauto].
    apply Ascii.eqb_eq in E. subst d. intros _. now exists s.
  - destruct s as [|d s]; [tauto|].
    destruct (Ascii.eqb c0 d) eqn:E; [|tauto].
    apply Ascii.eqb_eq in E. subst d. intros H.
    destruct (IH s H) as [rest ->]. now exists rest.
Qed.

Lemma sappend_assoc (a b c : string) : ((a ++ b) ++ c)%string = (a ++ (b ++ c))%string.
Proof. induction a as [|x a IH]; simpl; [reflexivity|now rewrite IH]. Qed.

Lemma sappend_nil (a : string) : (a ++ "")%string = a.
Proof. induction a as [|x a IH]; simpl; [reflexivity|now rewrite IH]. Qed.

Lemma take_length (x : string) : Str.take (String.length x - String.length "") x = x.
Proof.
  simpl. rewrite Nat.sub_0_r.
  induction x as [|c x IH]; simpl; [reflexivity|now rewrite IH].
Qed.

Lemma m_star_all (p : ascii -> bool) (x : string) e k res :
  Str.all_chars p x = true -> k EmptyString e = Some res -> m_star p x e k = Some res.
Proof.
  intros Hx Hk. rewrite <- (sappend_nil x). now apply m_star_greedy.
Qed.

(** [URN.match(string)] finds no match (and [match] raises
    [AttributeError] on [None.groupdict()]) for every string that does not
    start with ["urn:sdmx:org.sdmx.infomodel."]. *)
Theorem urn_match_requires_prefix (s : string) :
  match_ s <> None -> exists rest, s = ("urn:sdmx:org.sdmx.infomodel." ++ rest)%string.
Proof.
  unfold match_. intros H.
  assert (Hn : m URN s [] (fun _ e => Some e) <> None)
    by (destruct (m URN s [] (fun _ e => Some e)); [discriminate|contradiction]).
  destruct (m_lits_prefix "urn:sdmx:org.sdmx.infomodel" "." _ s [] _ Hn) as [rest ->].
  exists rest. reflexivity.
Qed.

Lemma opt_some_item {A : Type} (X Y : option A) (r : A) :
  X = Some r -> match X with Some r' => Some r' | None => Y end = Some r.
Proof. now intros ->. Qed.

Ltac run_star :=
  try apply opt_some_item;
  eapply m_star_greedy; [eassumption || reflexivity | reflexivity | cbn beta];
  rewrite ?take_captured.

(** [match(make(obj) + "." + item_id)], the URN of an item of a
    maintainable object: for fields as in [make]'s round trip and an item
    id with no newline, every field comes back and the [item_id] group is
    the whole item id, dots included. *)
Theorem urn_item_match :
  forall pkg cn a i v it,
  Str.all_chars (not_char ".") pkg = true ->
  Str.all_chars (not_char "=") cn = true ->
  Str.all_chars (not_char ":") a = true ->
  Str.all_chars (fun c => not_char "(" c && not_char "." c) i = true ->
  Str.all_chars (fun c => is_digit c || Ascii.eqb c ".") v = true ->
  Str.all_chars any_char it = true ->
  match_ (make {| obj_package := pkg; obj_class_name := cn;
                  obj_maintainer_id := a; obj_id := i; obj_version := v |} ++ "." ++ it)
  = Some {| package := Some pkg; class := Some cn; agency := Some a;
            id := Some i; version := Some v; item_id := Some it |}.
Proof.
  intros pkg cn a i v it Hp Hc Ha Hi Hv Hit.
  unfold match_, make, URN.
  cbn [obj_package obj_class_name obj_maintainer_id obj_id obj_version].
  rewrite !sappend_assoc.
  match goal with |- option_map _ ?M = _ =>
    assert (HM : exists E, M = Some E /\ groupdict E
      = {| package := Some pkg; class := Some cn; agency := Some a;
           id := Some i; version := Some v; item_id := Some it |}) end.
  { eexists; split.
    - cbn [lits m String.append].
      run_star. simpl.
      run_star. simpl.
      run_star. simpl.
      run_star. simpl.
      run_star. simpl.
      apply opt_some_item. simpl.
      apply m_star_all; [exact Hit|]. rewrite take_length. reflexivity.
    - reflexivity. }
  destruct HM as [E [-> HE]]. simpl. now rewrite HE.
Qed.

End UrnMore.

(* ================================================================== *)
(** ** Concrete instances of the further properties *)

Module ExtraWitnesses.

(** [maintainable] on an element with an [id] attribute, one annotation
    and one name on the stack. *)
Lemma maintainable_effect_witness :
  exists kw' d',
    maintainable (string + list value) inl inr
      (fun v => match v with inr l => Some l | inl _ => None end)
      (Some [("id", "CL")]) []
      [(KCls Annotation, [VStr "a"]); (KStr "Name", [VStr "n"])]
    = inr (kw', [VStr "n"], [], d')
    /\ kw_get _ "annotations" kw' = Some (inr [VStr "a"])
    /\ kw_get _ "id" kw' = Some (inl "CL")
    /\ bucket (KStr "Name") d' = [].
Proof.
  destruct (ArtefactFacts.maintainable_effect (string + list value) inl inr
              (fun v => match v with inr l => Some l | inl _ => None end) eq_refl
              [("id", "CL")] []
              [(KCls Annotation, [VStr "a"]); (KStr "Name", [VStr "n"])] []
              ltac:(unfold wf; simpl; repeat constructor; simpl; intuition discriminate)
              eq_refl)
    as [_ (kw' & d' & H1 & H2 & _ & H4)].
  exists kw', d'. split; [exact H1|]. split; [rewrite H2; reflexivity|].
  split; [rewrite H2; vm_compute; reflexivity|]. rewrite H4. reflexivity.
Defined.

(** [_clean] drops an empty bucket and keeps the count of non-ignored
    entries. *)
Lemma clean_keeps_contents_witness :
  _clean [(KStr "A", []); (KCls Code, [VObj codelist_B])] = [(KCls Code, [VObj codelist_B])]
  /\ non_ignored (set_stack {| stack := [(KStr "A", []); (KCls Code, [VObj codelist_B])];
                               ignore := []; next_ident := 0 |}
                   (_clean [(KStr "A", []); (KCls Code, [VObj codelist_B])]))
     = non_ignored {| stack := [(KStr "A", []); (KCls Code, [VObj codelist_B])];
                      ignore := []; next_ident := 0 |}.
Proof.
  split; [reflexivity|].
  exact (proj2 (proj2 (proj2 (CleanFacts.clean_keeps_contents
    {| stack := [(KStr "A", []); (KCls Code, [VObj codelist_B])]; ignore := []; next_ident := 0 |}
    ltac:(unfold wf; simpl; repeat constructor; simpl; intuition discriminate))))).
Defined.

(** [pop_single] on a missing bucket. *)
Lemma pop_single_lifo_witness :
  fst (pop_single (KStr "Enumeration") []) = VNone
  /\ fst (pop_single (KStr "Enumeration") (push_key (KStr "Enumeration") (VStr "x") []))
     = VStr "x".
Proof.
  destruct (PopSingleFacts.pop_single_lifo (KStr "Enumeration") []) as [H1 H2].
  split; [exact (proj1 (H2 eq_refl)) | exact (proj1 (H1 (VStr "x")))].
Defined.

(** [pop_resolved_ref] of a pushed string. *)
Lemma pop_resolved_ref_plain_witness :
  exists d',
    pop_resolved_ref (fun _ _ => inl KeyError) Codelist (Some (KStr "Enumeration"))
      (set_stack empty_rd (push_key (KStr "Enumeration") (VStr "x") []))
    = inr (VStr "x", set_stack empty_rd d').
Proof.
  destruct (proj1 (PopSingleFacts.pop_resolved_ref_plain (fun _ _ => inl KeyError) Codelist
                     (KStr "Enumeration") empty_rd) (VStr "x") ltac:(discriminate) eq_refl)
    as [d' [H _]].
  exists d'. exact H.
Defined.

(** [get] by id after pushing the Codelist [CL_B]. *)
Lemma get_after_push_witness :
  get (QCls Codelist) (Some "CL_B") true (push (VObj codelist_B) [])
  = inr (Some (VObj codelist_B))
  /\ get (QCls ItemScheme) (Some "CL_B") false (push (VObj codelist_B) [])
     = inr (Some (VObj codelist_B)).
Proof.
  destruct (GetPush.get_after_push codelist_B "CL_B" [] ltac:(discriminate) eq_refl)
    as [H1 H2].
  split; [exact H1 | exact (H2 ItemScheme eq_refl eq_refl)].
Defined.

(** A Code of the missing Codelist [CL], resolved twice. *)
Lemma resolve_missing_scheme_once_witness :
  exists rd',
    resolve (fun _ _ => inl KeyError) Code
      (VRef {| Ref.maintainable := false; Ref.child_cls := Code; Ref.child_id := Some "A";
               Ref.cls := Codelist; Ref.id := Some "CL"; Ref.version := None |}) empty_rd
    = inr (VNone, rd')
    /\ resolve (fun _ _ => inl KeyError) Code
         (VRef {| Ref.maintainable := false; Ref.child_cls := Code; Ref.child_id := Some "A";
                  Ref.cls := Codelist; Ref.id := Some "CL"; Ref.version := None |}) rd'
       = inr (VNone, rd').
Proof.
  destruct (ResolveMore.resolve_missing_scheme_once (fun _ _ => inl KeyError) Code
              {| Ref.maintainable := false; Ref.child_cls := Code; Ref.child_id := Some "A";
                 Ref.cls := Codelist; Ref.id := Some "CL"; Ref.version := None |}
              empty_rd "A" "CL" eq_refl eq_refl eq_refl ltac:(discriminate) eq_refl
              ltac:(discriminate) eq_refl (Forall_nil _) eq_refl)
    as (rd' & H1 & _ & H3).
  exists rd'. split; [exact H1|exact H3].
Defined.

(** [unstash] with nothing stashed. *)
Lemma unstash_edges_witness :
  (exists d', unstash [] = inr d' /\ bucket (KStr "_stash") d' = [])
  /\ unstash (append_to (KStr "_stash") (VStr "x") []) = inl AttributeError
  /\ unstash (append_to (KStr "_stash") (VObj codelist_B) []) = inl TypeError.
Proof.
  destruct (UnstashFacts.unstash_edges []) as [H1 [H2 H3]]. split; [|split].
  - destruct (H1 eq_refl) as [d' [Hd Hb]]. exists d'. split; [exact Hd|apply Hb].
  - apply H2; [discriminate|]. intros o Ho. discriminate Ho.
  - apply H3. reflexivity.
Defined.

(** [add_localizations] with two labels for ["en"]. *)
Lemma add_localizations_update_witness :
  loc_get string "en" (add_localizations string [("en", "old"); ("fr", "x")]
                         [("en", "a"); ("de", "b"); ("en", "c")]) = Some "c"
  /\ NoDup (map fst (add_localizations string [("en", "old"); ("fr", "x")]
                       [("en", "a"); ("de", "b"); ("en", "c")])).
Proof.
  destruct (LocFacts.add_localizations_update string [("en", "old"); ("fr", "x")]
              [("en", "a"); ("de", "b"); ("en", "c")]) as [H1 H2].
  split; [rewrite H1; reflexivity|].
  apply H2. simpl. repeat constructor; simpl; intuition discriminate.
Defined.

(** [_facet] with two attributes of the snake-case name [min_length]. *)
Lemma facet_args_spec_witness :
  exists kw,
    _facet_args [("textType", "BigInteger"); ("minLength", "1"); ("min_length", "2")]
    = inr ("bigInteger", kw)
    /\ loc_get string "min_length" kw = Some "2".
Proof.
  destruct (LocFacts.facet_args_spec
              [("textType", "BigInteger"); ("minLength", "1"); ("min_length", "2")])
    as [H1 H2].
  destruct H1 as [kw Hkw]. exists kw. split; [exact Hkw|].
  destruct (H2 _ _ Hkw) as [_ H]. rewrite H. vm_compute. reflexivity.
Defined.

(** A URN's prefix. *)
Lemma urn_match_requires_prefix_witness :
  exists rest, demo_urn = ("urn:sdmx:org.sdmx.infomodel." ++ rest)%string.
Proof.
  apply UrnMore.urn_match_requires_prefix. vm_compute. discriminate.
Defined.

(** The URN of the Code [A.B] of the Codelist [CL_FREQ]. *)
Lemma urn_item_match_witness :
  Urn.match_ (Urn.make {| Urn.obj_package := "codelist"; Urn.obj_class_name := "Codelist";
                          Urn.obj_maintainer_id := "ECB"; Urn.obj_id := "CL_FREQ";
                          Urn.obj_version := "1.0" |} ++ "." ++ "A.B")
  = Some {| Urn.package := Some "codelist"; Urn.class := Some "Codelist";
            Urn.agency := Some "ECB"; Urn.id := Some "CL_FREQ";
            Urn.version := Some "1.0"; Urn.item_id := Some "A.B" |}.
Proof.
  apply UrnMore.urn_item_match; reflexivity.
Defined.

End ExtraWitnesses.
